(** * nanosync: field mapping, schema text and the two-phase sync

    A shallow embedding of the resolver-keyed core of [nanosync.ts]
    ([findQueryFieldName] ... [sync]) together with the part of its two
    dependencies the core relies on: [tiny-invariant] and the [graphql]
    package (version 16: names are asserted when a schema is constructed).

    Conventions of the embedding.
    - A JavaScript string is a [string]; its characters are the code units
      below 256.
    - A JavaScript value that the core moves around (a [FieldValue], a looked
      up property) is a [Js.value]: [undefined], [null], a boolean or a
      string.  Numbers and objects, which [FieldValue] also admits, are not
      part of the embedding.
    - A plain object is the list of its own properties in creation order;
      [Js.ownEntries] gives the order in which the language enumerates them.
      A property is looked up among the own properties: what a plain object
      inherits from [Object.prototype] is not part of the embedding.
    - A function that may raise returns a [Js.result].  An [async] function
      is embedded by the value its promise settles to: [Ok] when it fulfils,
      [Throw] when it rejects.
    - A resolver is a function of its arguments: the same call settles the
      same way every time.  Console output is not part of the embedding. *)

From Stdlib Require Import String Ascii List Bool Arith NArith Lia.
Import ListNotations.
Local Open Scope list_scope.
Local Open Scope string_scope.

(* ================================================================== *)
(** * JavaScript vocabulary *)

Module Js.

Inductive value : Type :=
| VUndefined
| VNull
| VBool (b : bool)
| VString (s : string).

(** [String(v)], which is also what a template literal inserts. *)
Definition toString (v : value) : string :=
  match v with
  | VUndefined => "undefined"
  | VNull => "null"
  | VBool true => "true"
  | VBool false => "false"
  | VString s => s
  end.

Inductive exn : Type :=
| Error (message : string)
| TypeError
| GraphQLError.

Inductive result (A : Type) : Type :=
| Ok (a : A)
| Throw (e : exn).
Arguments Ok {A} a.
Arguments Throw {A} e.

Definition bind {A B : Type} (r : result A) (k : A -> result B) : result B :=
  match r with
  | Ok a => k a
  | Throw e => Throw e
  end.

(** How a promise settles.  An exception raised inside a resolver is handled
    by the execution engine exactly as a rejection, so both are [Rejected]. *)
Inductive settled : Type :=
| Fulfilled (v : value)
| Rejected.

(** ** Plain objects *)

Definition obj (V : Type) : Type := list (string * V).

Fixpoint get {V : Type} (k : string) (o : obj V) : option V :=
  match o with
  | [] => None
  | (k', v) :: rest => if String.eqb k k' then Some v else get k rest
  end.

(** [o[k] = v]: an existing property keeps its place, a new one goes last. *)
Fixpoint set {V : Type} (k : string) (v : V) (o : obj V) : obj V :=
  match o with
  | [] => [(k, v)]
  | (k', v') :: rest =>
      if String.eqb k k' then (k, v) :: rest else (k', v') :: set k v rest
  end.

Definition digit (c : ascii) : option N :=
  let n := N_of_ascii c in
  if ((48 <=? n) && (n <=? 57))%N then Some (n - 48)%N else None.

Fixpoint digits (acc : N) (s : string) : option N :=
  match s with
  | EmptyString => Some acc
  | String c rest =>
      match digit c with
      | Some d => digits (10 * acc + d)%N rest
      | None => None
      end
  end.

(** A property key is an array index when it is the canonical decimal form of
    an integer below 2^32 - 1. *)
Definition arrayIndex (s : string) : option N :=
  match s with
  | EmptyString => None
  | String c rest =>
      if Ascii.eqb c "0" then
        match rest with EmptyString => Some 0%N | _ => None end
      else
        match digits 0 s with
        | Some n => if (n <=? 4294967294)%N then Some n else None
        | None => None
        end
  end.

Fixpoint insertIndexed {V : Type} (n : N) (e : string * V)
  (l : list (N * (string * V))) : list (N * (string * V)) :=
  match l with
  | [] => [(n, e)]
  | (m, e') :: rest =>
      if (n <=? m)%N then (n, e) :: l else (m, e') :: insertIndexed n e rest
  end.

Fixpoint indexed {V : Type} (o : obj V) : list (N * (string * V)) :=
  match o with
  | [] => []
  | e :: rest =>
      match arrayIndex (fst e) with
      | Some n => insertIndexed n e (indexed rest)
      | None => indexed rest
      end
  end.

Definition named {V : Type} (o : obj V) : obj V :=
  filter (fun e => match arrayIndex (fst e) with
                   | Some _ => false
                   | None => true
                   end) o.

(** Own properties in enumeration order: array indices ascending, then the
    other keys in creation order. *)
Definition ownEntries {V : Type} (o : obj V) : list (string * V) :=
  (map snd (indexed o) ++ named o)%list.

(** [Object.keys(o)] *)
Definition keys {V : Type} (o : obj V) : list string :=
  map fst (ownEntries o).

(** [{ ...a, ...b }] *)
Definition spread {V : Type} (a b : obj V) : obj V :=
  fold_left (fun acc e => set (fst e) (snd e) acc)
            (ownEntries a ++ ownEntries b)%list [].

(** [xs.join(sep)] on an array of strings *)
Definition join (sep : string) (xs : list string) : string :=
  String.concat sep xs.

(** [new Set(xs).size] on an array of strings *)
Definition setSize (xs : list string) : nat :=
  length (nodup string_dec xs).

(** [xs.find(p)] *)
Definition find {A : Type} (p : A -> bool) (xs : list A) : option A :=
  List.find p xs.

End Js.

Import Js.

(* ================================================================== *)
(** * Field model *)

Inductive FieldType : Type :=
| TString | TNumber | TBoolean | TDate | TTime
| TDatetime | TJson | TArray | TObject | TCustom.

Record Field : Type := mkField {
  key : string;
  type : FieldType
}.

Record MappedField : Type := mkMappedField {
  sourceField : Field;
  targetField : Field
}.

Record Integration : Type := mkIntegration {
  name : string;
  description : string;
  resolveQuery : option (string -> settled);
  resolveMutation : option (string -> value -> settled)
}.

(** [findQueryFieldName] finds the source field key given a target field key *)
Definition findQueryFieldName (fields : list MappedField)
  (mutationFieldName : string) : option string :=
  option_map (fun f => key (sourceField f))
    (Js.find (fun f => String.eqb mutationFieldName (key (targetField f)))
             fields).

(** [findMutationFieldName] finds the target field key given a source field
    key *)
Definition findMutationFieldName (fields : list MappedField)
  (queryFieldName : string) : option string :=
  option_map (fun f => key (targetField f))
    (Js.find (fun f => String.eqb queryFieldName (key (sourceField f)))
             fields).

(* ================================================================== *)
(** * The graphql package, as far as the core uses it *)

Module GraphQL.

Definition inRange (lo hi : N) (c : ascii) : bool :=
  ((lo <=? N_of_ascii c) && (N_of_ascii c <=? hi))%N.

Definition isLetter (c : ascii) : bool :=
  inRange 65 90 c || inRange 97 122 c.

Definition isDigit (c : ascii) : bool := inRange 48 57 c.

Definition isNameStart (c : ascii) : bool :=
  isLetter c || Ascii.eqb c "_".

Definition isNameContinue (c : ascii) : bool :=
  isLetter c || isDigit c || Ascii.eqb c "_".

Fixpoint allChars (p : ascii -> bool) (s : string) : bool :=
  match s with
  | EmptyString => true
  | String c rest => p c && allChars p rest
  end.

(** The test of [assertName]: a non-empty string, name characters
    throughout, no digit in front. *)
Definition isName (s : string) : bool :=
  match s with
  | EmptyString => false
  | String c rest => allChars isNameContinue rest && isNameStart c
  end.

Definition assertName (s : string) : result string :=
  if isName s then Ok s else Throw GraphQLError.

(** Names the schema validation reserves for introspection. *)
Definition isReserved (s : string) : bool := String.prefix "__" s.

(** A field of an object type.  Every field and every argument the core
    declares has type [GraphQLString], so a field is given by the names of
    its arguments and its [resolve] function (which receives the object of
    argument values). *)
Record FieldConfig : Type := mkFieldConfig {
  args : list string;
  resolve : obj value -> settled
}.

Record GraphQLObjectType : Type := mkObjectType {
  typeName : string;
  getFields : obj FieldConfig
}.

Record GraphQLSchema : Type := mkSchema {
  getQueryType : option GraphQLObjectType;
  getMutationType : option GraphQLObjectType
}.

Definition assertField (e : string * FieldConfig) : bool :=
  isName (fst e) && forallb isName (args (snd e)).

Definition assertType (t : GraphQLObjectType) : bool :=
  isName (typeName t) && forallb assertField (ownEntries (getFields t)).

(** [new GraphQLSchema({ query, mutation })]: the constructor walks both
    types and raises on the first name that is not a name. *)
Definition newGraphQLSchema (query mutation : GraphQLObjectType)
  : result GraphQLSchema :=
  if assertType query && assertType mutation
  then Ok (mkSchema (Some query) (Some mutation))
  else Throw GraphQLError.

(** ** Schema validation, run by [graphql] before anything else *)

Definition validField (e : string * FieldConfig) : bool :=
  negb (isReserved (fst e))
  && forallb (fun a => negb (isReserved a)) (args (snd e)).

Definition validType (t : GraphQLObjectType) : bool :=
  negb (isReserved (typeName t))
  && match getFields t with [] => false | _ :: _ => true end
  && forallb validField (getFields t).

Definition validateSchema (s : GraphQLSchema) : bool :=
  match getQueryType s with
  | None => false
  | Some q => validType q
  end
  && match getMutationType s with
     | None => true
     | Some m => validType m
     end.

(** ** Request text

    The lexer and the parser below cover the request language the core
    emits: an operation keyword, and in braces a list of field names, each
    with at most one argument whose value is a string literal without escape
    sequences.  [parse] answers [None] on every other text, whether the
    library would reject it or would read it as a richer request. *)

Inductive Token : Type :=
| NAME (s : string)
| STRING (s : string)
| BRACE_L | BRACE_R | PAREN_L | PAREN_R | COLON.

Inductive LexState : Type :=
| Idle
| InName (acc : string)
| InString (acc : string)
| AfterEmptyString.

Definition isIgnored (c : ascii) : bool :=
  let n := N_of_ascii c in
  ((n =? 9) || (n =? 10) || (n =? 13) || (n =? 32) || (n =? 44))%N.

(** Characters a string literal holds as they are: no quote, no backslash,
    no control character other than the tab. *)
Definition isPlainChar (c : ascii) : bool :=
  let n := N_of_ascii c in
  negb (n =? 34)%N && negb (n =? 92)%N && ((32 <=? n) || (n =? 9))%N.

Definition isPlain (s : string) : bool := allChars isPlainChar s.

Definition snoc (s : string) (c : ascii) : string := s ++ String c EmptyString.

(** What reading one character does: the tokens it completes and the state
    it leaves the lexer in; [None] when the text leaves the covered
    language. *)
Definition startToken (c : ascii) : option (list Token * LexState) :=
  if isIgnored c then Some ([], Idle)
  else if Ascii.eqb c "{" then Some ([BRACE_L], Idle)
  else if Ascii.eqb c "}" then Some ([BRACE_R], Idle)
  else if Ascii.eqb c "(" then Some ([PAREN_L], Idle)
  else if Ascii.eqb c ")" then Some ([PAREN_R], Idle)
  else if Ascii.eqb c ":" then Some ([COLON], Idle)
  else if Ascii.eqb c "034" then Some ([], InString "")
  else if isNameStart c then Some ([], InName (String c ""))
  else None.

Definition after (t : Token) (r : option (list Token * LexState))
  : option (list Token * LexState) :=
  match r with
  | Some (ts, st) => Some (t :: ts, st)
  | None => None
  end.

Definition lexStep (st : LexState) (c : ascii)
  : option (list Token * LexState) :=
  match st with
  | Idle => startToken c
  | InName acc =>
      if isNameContinue c then Some ([], InName (snoc acc c))
      else after (NAME acc) (startToken c)
  | InString acc =>
      if Ascii.eqb c "034" then
        match acc with
        | EmptyString => Some ([], AfterEmptyString)
        | _ => Some ([STRING acc], Idle)
        end
      else if isPlainChar c then Some ([], InString (snoc acc c))
      else None
  | AfterEmptyString =>
      (* three quotes in a row open a block string *)
      if Ascii.eqb c "034" then None else after (STRING "") (startToken c)
  end.

Definition lexEnd (st : LexState) : option (list Token) :=
  match st with
  | Idle => Some []
  | InName acc => Some [NAME acc]
  | InString _ => None
  | AfterEmptyString => Some [STRING ""]
  end.

Fixpoint lex (st : LexState) (s : string) : option (list Token) :=
  match s with
  | EmptyString => lexEnd st
  | String c rest =>
      match lexStep st c with
      | None => None
      | Some (ts, st') => option_map (app ts) (lex st' rest)
      end
  end.

Inductive OperationType : Type := OpQuery | OpMutation.

Record FieldNode : Type := mkFieldNode {
  fieldName : string;
  argument : option (string * string)
}.

Record Document : Type := mkDocument {
  operation : OperationType;
  selections : list FieldNode
}.

Fixpoint parseSelections (ts : list Token) : option (list FieldNode) :=
  match ts with
  | [BRACE_R] => Some []
  | NAME n :: PAREN_L :: NAME a :: COLON :: STRING v :: PAREN_R :: rest =>
      option_map (cons (mkFieldNode n (Some (a, v)))) (parseSelections rest)
  | NAME n :: rest =>
      option_map (cons (mkFieldNode n None)) (parseSelections rest)
  | _ => None
  end.

Definition parseOperationType (kw : string) : option OperationType :=
  if String.eqb kw "query" then Some OpQuery
  else if String.eqb kw "mutation" then Some OpMutation
  else None.

Fixpoint distinct (xs : list string) : bool :=
  match xs with
  | [] => true
  | x :: rest => negb (existsb (String.eqb x) rest) && distinct rest
  end.

(** Within the covered language a selection set is non-empty, names no field
    twice and asks for no introspection field. *)
Definition coveredSelections (fs : list FieldNode) : bool :=
  match fs with [] => false | _ :: _ => true end
  && distinct (map fieldName fs)
  && forallb (fun f => negb (isReserved (fieldName f))) fs.

Definition parse (source : string) : option Document :=
  match lex Idle source with
  | Some (NAME kw :: BRACE_L :: rest) =>
      match parseOperationType kw, parseSelections rest with
      | Some op, Some fs =>
          if coveredSelections fs then Some (mkDocument op fs) else None
      | _, _ => None
      end
  | _ => None
  end.

(** ** Validation of a request against the root type it addresses *)

Definition validSelection (t : GraphQLObjectType) (f : FieldNode) : bool :=
  match get (fieldName f) (getFields t) with
  | None => false
  | Some cfg =>
      match argument f with
      | None => true
      | Some (a, _) => existsb (String.eqb a) (args cfg)
      end
  end.

Definition validate (t : GraphQLObjectType) (d : Document) : bool :=
  forallb (validSelection t) (selections d).

(** ** Execution *)

Inductive GqlError : Type :=
| SchemaInvalid
| RequestInvalid
| NoRootType
| FieldFailed (path : string).

Record ExecutionResult : Type := mkResult {
  errors : option (list GqlError);
  data : option (obj value)
}.

(** [GraphQLString.serialize], after the engine has turned [undefined] and
    [null] into [null]. *)
Definition completeValue (v : value) : value :=
  match v with
  | VUndefined => VNull
  | VNull => VNull
  | VBool b => VString (toString (VBool b))
  | VString s => VString s
  end.

Definition argumentValues (f : FieldNode) : obj value :=
  match argument f with
  | None => []
  | Some (a, v) => [(a, VString v)]
  end.

(** One field: its value in the response and whether it failed. *)
Definition executeField (t : GraphQLObjectType) (f : FieldNode)
  : value * list GqlError :=
  match get (fieldName f) (getFields t) with
  | None => (VNull, [FieldFailed (fieldName f)])
  | Some cfg =>
      match resolve cfg (argumentValues f) with
      | Fulfilled v => (completeValue v, [])
      | Rejected => (VNull, [FieldFailed (fieldName f)])
      end
  end.

Fixpoint executeFields (t : GraphQLObjectType) (fs : list FieldNode)
  : obj value * list GqlError :=
  match fs with
  | [] => ([], [])
  | f :: rest =>
      let (v, e) := executeField t f in
      let (vs, es) := executeFields t rest in
      ((fieldName f, v) :: vs, (e ++ es)%list)
  end.

Definition execute (t : GraphQLObjectType) (d : Document) : ExecutionResult :=
  let (vs, es) := executeFields t (selections d) in
  mkResult (match es with [] => None | _ :: _ => Some es end) (Some vs).

Definition rootType (s : GraphQLSchema) (op : OperationType)
  : option GraphQLObjectType :=
  match op with
  | OpQuery => getQueryType s
  | OpMutation => getMutationType s
  end.

End GraphQL.

Import GraphQL.

(* ================================================================== *)
(** * The core *)

Notation "x <- c1 ;; c2" := (Js.bind c1 (fun x => c2))
  (at level 61, c1 at next level, right associativity).

(** [xs.map(f)] where [f] may raise: left to right, the first exception
    ends the traversal. *)
Fixpoint mapM {A B : Type} (f : A -> result B) (xs : list A)
  : result (list B) :=
  match xs with
  | [] => Ok []
  | x :: rest =>
      y <- f x ;;
      ys <- mapM f rest ;;
      Ok (y :: ys)
  end.

Record ProcessOptions : Type := mkOptions {
  fields : list MappedField;
  sourceIntegration : Integration;
  targetIntegration : Integration
}.

Record Process : Type := mkProcess {
  options : ProcessOptions;
  schema : GraphQLSchema
}.

(** What can reach [validateProcess] and [sync] at run time in place of a
    [Process]: [null], or an object any part of which is missing. *)
Record RawOptions : Type := mkRawOptions {
  rawFields : option (list MappedField);
  rawSourceIntegration : option Integration;
  rawTargetIntegration : option Integration
}.

Record RawObject : Type := mkRawObject {
  rawOptions : option RawOptions;
  rawSchema : option GraphQLSchema
}.

Definition RawProcess : Type := option RawObject.

Definition rawOfOptions (o : ProcessOptions) : RawOptions :=
  mkRawOptions (Some (fields o)) (Some (sourceIntegration o))
               (Some (targetIntegration o)).

Definition rawOf (p : Process) : RawProcess :=
  Some (mkRawObject (Some (rawOfOptions (options p))) (Some (schema p))).

(** Reading the parts of a raw process where a [Process] is expected. *)
Definition asProcess (raw : RawProcess) : option Process :=
  match raw with
  | Some (mkRawObject (Some (mkRawOptions (Some fs) (Some s) (Some t)))
                      (Some sch)) =>
      Some (mkProcess (mkOptions fs s t) sch)
  | _ => None
  end.

(** The query slot of a mapped field *)
Definition querySlot (resolver : option (string -> settled))
  (f : MappedField) : FieldConfig :=
  mkFieldConfig []
    (fun _ =>
       match resolver with
       | Some r => r (key (sourceField f))
       | None => Rejected
       end).

(** The mutation slot of a mapped field *)
Definition mutationSlot (resolver : option (string -> value -> settled))
  (f : MappedField) : FieldConfig :=
  mkFieldConfig ["resolvedQuery"]
    (fun a =>
       match resolver with
       | Some r =>
           r (key (targetField f))
             (match get "resolvedQuery" a with
              | Some v => v
              | None => VUndefined
              end)
       | None => Rejected
       end).

(** [createQuerySchema] generates a graphql object type for querying an
    integration *)
Definition createQuerySchema (fields : list MappedField)
  (resolver : option (string -> settled)) : GraphQLObjectType :=
  let queryFields :=
    map (fun f => [(key (sourceField f), querySlot resolver f)]) fields in
  mkObjectType "RootQueryType"
    (fold_left (fun acc f => spread acc f) queryFields []).

(** [createMutationSchema] generates a graphql object type for mutating an
    integration *)
Definition createMutationSchema (fields : list MappedField)
  (resolver : option (string -> value -> settled)) : GraphQLObjectType :=
  let mutateFields :=
    map (fun f => [(key (targetField f), mutationSlot resolver f)]) fields in
  mkObjectType "RootMutationType"
    (fold_left (fun acc f => spread acc f) mutateFields []).

(** [createSchema] generates the graphql schema *)
Definition createSchema (fields : list MappedField)
  (sourceIntegration targetIntegration : Integration) : result GraphQLSchema :=
  newGraphQLSchema
    (createQuerySchema fields (resolveQuery sourceIntegration))
    (createMutationSchema fields (resolveMutation targetIntegration)).

(** [createQueryString] generates the query string of a schema *)
Definition createQueryString (schema : GraphQLSchema) : result string :=
  match getQueryType schema with
  | None => Throw (Error "Schema has no query type defined")
  | Some queryType =>
      let fields := join " " (keys (getFields queryType)) in
      Ok ("query{" ++ fields ++ "}")
  end.

Definition dquote : string := String "034" EmptyString.

(** [createMutationString] generates the mutation string of a schema, using
    the field mappings to find the resolved value of each mutation field *)
Definition createMutationString (schema : GraphQLSchema)
  (fieldMappings : list MappedField) (queryResults : obj value)
  : result string :=
  match getMutationType schema with
  | None => Throw (Error "Schema has no mutation type defined")
  | Some mutationType =>
      fields <-
        mapM (fun e =>
                let mutationFieldName := fst e in
                match findQueryFieldName fieldMappings mutationFieldName with
                | Some (String c s) =>
                    let queryFieldName := String c s in
                    let value := match get queryFieldName queryResults with
                                 | Some v => v
                                 | None => VUndefined
                                 end in
                    Ok (mutationFieldName ++ "(resolvedQuery:" ++ dquote
                          ++ toString value ++ dquote ++ ")")
                | _ =>
                    Throw (Error
                      ("Could not find query field for mutation field: "
                         ++ mutationFieldName))
                end)
             (ownEntries (getFields mutationType)) ;;
      Ok ("mutation{" ++ join " " fields ++ "}")
  end.

(** [invariant(condition, message)] of tiny-invariant *)
Definition invariant (condition : bool) (message : string) : result unit :=
  if condition then Ok tt
  else Throw (Error ("Invariant failed: " ++ message)).

(** [invariant(x, message)] on a part that may be missing, giving the part *)
Definition required {A : Type} (x : option A) (message : string) : result A :=
  match x with
  | Some a => Ok a
  | None => Throw (Error ("Invariant failed: " ++ message))
  end.

Definition isSome {A : Type} (x : option A) : bool :=
  match x with Some _ => true | None => false end.

Definition fieldCount (t : option GraphQLObjectType) : nat :=
  length (keys (match t with Some t' => getFields t' | None => [] end)).

(** The body of the [try] block of [validateProcess] *)
Definition validateChecks (process : RawProcess) : result unit :=
  (* First make sure everything exists *)
  p <- required process "Process is required" ;;
  o <- required (rawOptions p) "Options are required" ;;
  fields <- required (rawFields o) "Fields are required" ;;
  sourceIntegration <-
    required (rawSourceIntegration o) "Source integration is required" ;;
  targetIntegration <-
    required (rawTargetIntegration o) "Target integration is required" ;;
  schema <- required (rawSchema p) "Schema is required" ;;
  (* Then make sure everything is as expected *)
  _ <- invariant (0 <? length fields)%nat "Fields cannot be empty" ;;
  _ <- invariant
         (length fields
            =? setSize (map (fun f => key (sourceField f)) fields))%nat
         "Source fields must be unique" ;;
  _ <- invariant
         (length fields
            =? setSize (map (fun f => key (targetField f)) fields))%nat
         "Target fields must be unique" ;;
  _ <- invariant (isSome (resolveQuery sourceIntegration))
         "Source must have a resolveQuery" ;;
  _ <- invariant (isSome (resolveMutation targetIntegration))
         "Target must have a resolveMutation" ;;
  _ <- invariant (isSome (getQueryType schema))
         "Schema must have a query type" ;;
  _ <- invariant (isSome (getMutationType schema))
         "Schema must have a mutation type" ;;
  invariant
    (fieldCount (getQueryType schema)
       =? fieldCount (getMutationType schema))%nat
    "Schema must have as many query fields as there are mutation fields".

(** [validateProcess]: [false] when a check raised, [true] otherwise *)
Definition validateProcess (process : RawProcess) : bool :=
  match validateChecks process with
  | Ok _ => true
  | Throw _ => false
  end.

(** [createProcess] generates a Process object from ProcessOptions *)
Definition createProcess (options : ProcessOptions) : result Process :=
  schema <- createSchema (fields options) (sourceIntegration options)
              (targetIntegration options) ;;
  let process := mkProcess options schema in
  if negb (validateProcess (rawOf process))
  then Throw (Error "Invalid process")
  else Ok process.

Definition tryCatch {A : Type} (body : result A) (handler : exn -> result A)
  : result A :=
  match body with
  | Ok a => Ok a
  | Throw e => handler e
  end.

Section Engine.

(** The library's answer to a request text outside the covered language:
    whatever it is, it is an execution result. *)
Variable beyond : GraphQLSchema -> string -> ExecutionResult.

(** The text the library prints for a list of errors. *)
Variable printErrors : list GqlError -> string.

(** [graphql({ schema, source })] *)
Definition graphql (schema : GraphQLSchema) (source : string)
  : ExecutionResult :=
  if negb (validateSchema schema) then mkResult (Some [SchemaInvalid]) None
  else
    match parse source with
    | None => beyond schema source
    | Some document =>
        match rootType schema (operation document) with
        | None => mkResult (Some [NoRootType]) None
        | Some t =>
            if validate t document then execute t document
            else mkResult (Some [RequestInvalid]) None
        end
    end.

(** [resolveSource] resolves the source integration query to a data record *)
Definition resolveSource (process : Process) : result (obj value) :=
  query <- createQueryString (schema process) ;;
  let result := graphql (schema process) query in
  match errors result with
  | Some es => Throw (Error ("Query execution failed: " ++ printErrors es))
  | None =>
      match data result with
      | None => Throw (Error "Query data unavailable: undefined")
      | Some d => Ok d
      end
  end.

(** [resolveTarget] resolves the target integration mutation based on
    pre-resolved data records *)
Definition resolveTarget (process : Process) (queryResults : obj value)
  : result (option (obj value)) :=
  mutation <- createMutationString (schema process)
                (fields (options process)) queryResults ;;
  let result := graphql (schema process) mutation in
  match errors result with
  | Some es => Throw (Error ("Mutation execution failed: " ++ printErrors es))
  | None => Ok (data result)
  end.

(** [sync] synchronizes a given process; [None] is [null] *)
Definition sync (process : RawProcess) : result (option (obj value)) :=
  if negb (validateProcess process) then Ok None
  else
    tryCatch
      (p <- match asProcess process with
            | Some p => Ok p
            | None => Throw TypeError
            end ;;
       queryResults <- resolveSource p ;;
       mutationResults <- resolveTarget p queryResults ;;
       Ok mutationResults)
      (fun _ => Ok None).

End Engine.


(* ================================================================== *)
(** * Vocabulary of the statements *)

(** A key that is no array index *)
Definition named_key (k : string) : Prop := arrayIndex k = None.

(** One assignment [acc[k] = v], the property given as a pair *)
Definition assign {V : Type} (acc : obj V) (e : string * V) : obj V :=
  set (fst e) (snd e) acc.

(** The object the [reduce] of [createQuerySchema] and of
    [createMutationSchema] builds. *)
Definition slotSet {V : Type} (kf : MappedField -> string)
  (vf : MappedField -> V) (fields : list MappedField) : obj V :=
  fold_left (fun acc f => spread acc f)
            (map (fun f => [(kf f, vf f)]) fields) [].

Definition slotEntries {V : Type} (kf : MappedField -> string)
  (vf : MappedField -> V) (fields : list MappedField) : list (string * V) :=
  map (fun f => (kf f, vf f)) fields.

Fixpoint firstOccurrences (l : list string) : list string :=
  match l with
  | [] => []
  | x :: rest =>
      x :: filter (fun y => negb (String.eqb y x)) (firstOccurrences rest)
  end.

Definition mem (x : string) (l : list string) : bool :=
  existsb (String.eqb x) l.

Definition sourceKey (f : MappedField) : string := key (sourceField f).
Definition targetKey (f : MappedField) : string := key (targetField f).

Definition validProcess (p : Process) : Prop :=
  fields (options p) <> []
  /\ NoDup (map sourceKey (fields (options p)))
  /\ NoDup (map targetKey (fields (options p)))
  /\ resolveQuery (sourceIntegration (options p)) <> None
  /\ resolveMutation (targetIntegration (options p)) <> None
  /\ exists q m,
       getQueryType (schema p) = Some q /\ getMutationType (schema p) = Some m
       /\ length (keys (getFields q)) = length (keys (getFields m)).

(** The conjunction of the checks that follow the existence checks. *)
Definition checksHold (p : Process) : bool :=
  let fs := fields (options p) in
  (0 <? length fs)%nat
  && (length fs =? setSize (map sourceKey fs))%nat
  && (length fs =? setSize (map targetKey fs))%nat
  && isSome (resolveQuery (sourceIntegration (options p)))
  && isSome (resolveMutation (targetIntegration (options p)))
  && isSome (getQueryType (schema p))
  && isSome (getMutationType (schema p))
  && (fieldCount (getQueryType (schema p))
      =? fieldCount (getMutationType (schema p)))%nat.

(** [findMutationFieldName(fields, findQueryFieldName(fields, t))]; an
    [undefined] from the inner call equals no key. *)
Definition inverseLookup (fields : list MappedField) (t : string)
  : option string :=
  match findQueryFieldName fields t with
  | Some s => findMutationFieldName fields s
  | None => None
  end.

Definition twoWriters : list MappedField :=
  [ mkMappedField (mkField "a" TString) (mkField "x" TString);
    mkMappedField (mkField "a" TString) (mkField "y" TString) ].

Definition oneWriter : list MappedField :=
  [ mkMappedField (mkField "a" TString) (mkField "x" TString) ].

Definition rawWith (fields : list MappedField) (s t : option Integration)
  (sch : option GraphQLSchema) : RawProcess :=
  Some (mkRawObject (Some (mkRawOptions (Some fields) s t)) sch).

Definition selfMapped (k : string) (ty : FieldType) : list MappedField :=
  [ mkMappedField (mkField k ty) (mkField k ty) ].

Definition duplicatedSource : list MappedField :=
  [ mkMappedField (mkField "name" TString) (mkField "fullName" TString);
    mkMappedField (mkField "name" TString) (mkField "nickName" TString) ].

Definition echo : Integration :=
  mkIntegration "echo" "answers with its arguments"
    (Some (fun k => Fulfilled (VString k)))
    (Some (fun _ v => Fulfilled v)).

Definition scenarioFields : list MappedField :=
  [ mkMappedField (mkField "name" TString) (mkField "fullName" TString);
    mkMappedField (mkField "age" TNumber) (mkField "userAge" TNumber) ].

Definition duplicatedSchema : GraphQLSchema :=
  mkSchema (Some (createQuerySchema duplicatedSource (resolveQuery echo)))
           (Some (createMutationSchema duplicatedSource
                    (resolveMutation echo))).

Definition scenarioSchema : GraphQLSchema :=
  mkSchema (Some (createQuerySchema scenarioFields (resolveQuery echo)))
           (Some (createMutationSchema scenarioFields (resolveMutation echo))).

(** The value [createMutationString] reads for a mutation slot *)
Definition pairedValue (fieldMappings : list MappedField)
  (queryResults : obj value) (mutationFieldName : string) : value :=
  match findQueryFieldName fieldMappings mutationFieldName with
  | Some queryFieldName =>
      match get queryFieldName queryResults with
      | Some v => v
      | None => VUndefined
      end
  | None => VUndefined
  end.

(** The text of one mutation slot *)
Definition fragment (mutationFieldName : string) (v : value) : string :=
  mutationFieldName ++ "(resolvedQuery:" ++ dquote ++ toString v ++ dquote
    ++ ")".

(** A mutation slot is paired when the mapping list gives it a source key
    that is not the empty string. *)
Definition paired (fieldMappings : list MappedField) (n : string) : Prop :=
  exists c s, findQueryFieldName fieldMappings n = Some (String c s).

Definition unpairedError (n : string) : exn :=
  Error ("Could not find query field for mutation field: " ++ n).

Definition slotText (fieldMappings : list MappedField)
  (queryResults : obj value) (n : string) : result string :=
  match findQueryFieldName fieldMappings n with
  | Some (String c s) =>
      Ok (fragment n (pairedValue fieldMappings queryResults n))
  | _ => Throw (unpairedError n)
  end.

Definition scenarioResults : obj value :=
  [ ("name", VString "source_name_value");
    ("age", VString "source_age_value") ].

Definition queryNode (n : string) : FieldNode := mkFieldNode n None.

Definition mutationNode (item : string * value) : FieldNode :=
  mkFieldNode (fst item) (Some ("resolvedQuery", toString (snd item))).

Definition fragmentTokens (item : string * value) : list Token :=
  [NAME (fst item); PAREN_L; NAME "resolvedQuery"; COLON;
   STRING (toString (snd item)); PAREN_R].

(** Calling a resolver that may be missing: calling [undefined] raises. *)
Definition callQuery (r : option (string -> settled)) (k : string) : settled :=
  match r with
  | Some f => f k
  | None => Rejected
  end.

Definition callMutation (r : option (string -> value -> settled))
  (k : string) (v : value) : settled :=
  match r with
  | Some f => f k v
  | None => Rejected
  end.

(** What a settled resolver leaves in the response: its value, and an error
    when it was rejected. *)
Definition completed (path : string) (o : settled) : value * list GqlError :=
  match o with
  | Fulfilled v => (completeValue v, [])
  | Rejected => (VNull, [FieldFailed path])
  end.

(** The query phase on a mapping list: the response of each source key. *)
Definition queryData (r : option (string -> settled))
  (fields : list MappedField) : obj value :=
  map (fun f => (sourceKey f,
                 fst (completed (sourceKey f) (callQuery r (sourceKey f)))))
      fields.

Definition queryErrors (r : option (string -> settled))
  (fields : list MappedField) : list GqlError :=
  flat_map (fun f => snd (completed (sourceKey f) (callQuery r (sourceKey f))))
           fields.

(** The value the mutation resolver of an entry is called with: the text
    that [createMutationString] wrote for the entry's query result. *)
Definition wireValue (r : option (string -> settled)) (f : MappedField)
  : value :=
  VString (toString
             (fst (completed (sourceKey f) (callQuery r (sourceKey f))))).

Definition mutationOutcome (rq : option (string -> settled))
  (rm : option (string -> value -> settled)) (f : MappedField) : settled :=
  callMutation rm (targetKey f) (wireValue rq f).

Definition mutationData (rq : option (string -> settled))
  (rm : option (string -> value -> settled)) (fields : list MappedField)
  : obj value :=
  map (fun f => (targetKey f,
                 fst (completed (targetKey f) (mutationOutcome rq rm f))))
      fields.

Definition mutationErrors (rq : option (string -> settled))
  (rm : option (string -> value -> settled)) (fields : list MappedField)
  : list GqlError :=
  flat_map (fun f => snd (completed (targetKey f) (mutationOutcome rq rm f)))
           fields.

Definition resultOf (vs : obj value) (es : list GqlError) : ExecutionResult :=
  mkResult (match es with [] => None | _ :: _ => Some es end) (Some vs).

Definition mockSourceIntegration : Integration :=
  mkIntegration "source" "source integration"
    (Some (fun k => Fulfilled (VString ("source_" ++ k ++ "_value"))))
    (Some (fun k v =>
             Fulfilled (VString ("mutated_" ++ k ++ "_" ++ toString v)))).

Definition mockTargetIntegration : Integration :=
  mkIntegration "target" "target integration"
    (Some (fun k => Fulfilled (VString ("target_" ++ k ++ "_value"))))
    (Some (fun k v =>
             Fulfilled (VString ("mutated_" ++ k ++ "_" ++ toString v)))).

Definition mockProcess : Process :=
  mkProcess (mkOptions scenarioFields mockSourceIntegration
               mockTargetIntegration)
    (mkSchema
       (Some (createQuerySchema scenarioFields
                (resolveQuery mockSourceIntegration)))
       (Some (createMutationSchema scenarioFields
                (resolveMutation mockTargetIntegration)))).

(** An answer and a printer to stand for the library's where a statement
    needs them spelled out. *)
Definition noAnswer : GraphQLSchema -> string -> ExecutionResult :=
  fun _ _ => mkResult None None.

Definition noText : list GqlError -> string := fun _ => "".

Definition nullSource : Integration :=
  mkIntegration "nulls" "resolves every key to null"
    (Some (fun _ => Fulfilled VNull))
    (Some (fun _ v => Fulfilled v)).

Definition nullProcess : Process :=
  mkProcess (mkOptions oneWriter nullSource echo)
    (mkSchema
       (Some (createQuerySchema oneWriter (resolveQuery nullSource)))
       (Some (createMutationSchema oneWriter (resolveMutation echo)))).

Definition rejectingSource : Integration :=
  mkIntegration "source" "rejects the key age"
    (Some (fun k => if String.eqb k "age" then Rejected
                    else Fulfilled (VString ("source_" ++ k ++ "_value"))))
    None.

Definition rejectingOptions : ProcessOptions :=
  mkOptions scenarioFields rejectingSource mockTargetIntegration.

Definition rejectingProcess : Process :=
  mkProcess rejectingOptions
    (mkSchema
       (Some (createQuerySchema scenarioFields (resolveQuery rejectingSource)))
       (Some (createMutationSchema scenarioFields
                (resolveMutation mockTargetIntegration)))).

Definition ageField : MappedField :=
  mkMappedField (mkField "age" TNumber) (mkField "userAge" TNumber).

(** [findQueryFieldName(fields, findMutationFieldName(fields, s))]; an
    [undefined] from the inner call equals no key. *)
Definition inverseLookupBack (fields : list MappedField) (s : string)
  : option string :=
  match findMutationFieldName fields s with
  | Some t => findQueryFieldName fields t
  | None => None
  end.

(** [FieldValue(value)]: this cast is just used for mocking *)
Definition FieldValue (v : value) : value := VString (toString v).

(** [queryResults[k]] *)
Definition getProp (o : obj value) (k : string) : value :=
  match get k o with
  | Some v => v
  | None => VUndefined
  end.

(** The error [invariant] raises for a message *)
Definition invariantError (message : string) : exn :=
  Error ("Invariant failed: " ++ message).

(** The mutation phase on given query results: the call made for an entry,
    and the response and the errors of the phase. *)
Definition targetCall (rm : option (string -> value -> settled))
  (queryResults : obj value) (f : MappedField) : settled :=
  callMutation rm (targetKey f)
    (VString (toString (getProp queryResults (sourceKey f)))).

Definition targetData (rm : option (string -> value -> settled))
  (queryResults : obj value) (fields : list MappedField) : obj value :=
  map (fun f => (targetKey f,
                 fst (completed (targetKey f) (targetCall rm queryResults f))))
      fields.

Definition targetErrors (rm : option (string -> value -> settled))
  (queryResults : obj value) (fields : list MappedField) : list GqlError :=
  flat_map (fun f => snd (completed (targetKey f)
                            (targetCall rm queryResults f)))
           fields.

(** A value of a response: [null] or a string. *)
Definition isResponseValue (v : value) : Prop :=
  v = VNull \/ exists text, v = VString text.

Definition reservedFields : list MappedField :=
  [ mkMappedField (mkField "__id" TString) (mkField "id" TString) ].

Definition reservedProcess : Process :=
  mkProcess (mkOptions reservedFields echo echo)
    (mkSchema
       (Some (createQuerySchema reservedFields (resolveQuery echo)))
       (Some (createMutationSchema reservedFields (resolveMutation echo)))).

Definition testResults : obj value :=
  [ ("name", VString "John Doe"); ("age", VString "30") ].

Definition retypedFields : list MappedField :=
  [ mkMappedField (mkField "name" TJson) (mkField "fullName" TBoolean);
    mkMappedField (mkField "age" TDate) (mkField "userAge" TCustom) ].

(* ================================================================== *)
(** * Properties of the JavaScript vocabulary *)

Section ObjectFacts.

Context {V : Type}.

Lemma indexed_nil_of_named (o : obj V) :
  Forall (fun e => named_key (fst e)) o -> indexed o = [].
Proof.
  induction 1 as [|e o He _ IH]; simpl; [reflexivity|].
  unfold named_key in He. rewrite He. exact IH.
Qed.

Lemma named_id_of_named (o : obj V) :
  Forall (fun e => named_key (fst e)) o -> named o = o.
Proof.
  unfold named.
  induction 1 as [|e o He _ IH]; simpl; [reflexivity|].
  unfold named_key in He. rewrite He. now rewrite IH.
Qed.

(** Without array indices among the keys, enumeration order is creation
    order. *)
Lemma ownEntries_named (o : obj V) :
  Forall (fun e => named_key (fst e)) o -> ownEntries o = o.
Proof.
  intros H. unfold ownEntries.
  now rewrite indexed_nil_of_named, named_id_of_named.
Qed.

Lemma In_insertIndexed n (e : string * V) l x :
  In x (insertIndexed n e l) <-> x = (n, e) \/ In x l.
Proof.
  induction l as [|[m e'] l IH]; simpl.
  - intuition congruence.
  - destruct (n <=? m)%N; simpl; [intuition congruence|].
    rewrite IH. intuition congruence.
Qed.

Lemma In_indexed (o : obj V) e :
  In e (map snd (indexed o)) <-> In e o /\ arrayIndex (fst e) <> None.
Proof.
  induction o as [|e' o IH]; simpl.
  - intuition.
  - destruct (arrayIndex (fst e')) as [n|] eqn:E.
    + rewrite in_map_iff. split.
      * intros [[m x] [Hx Hin]]. simpl in Hx. subst x.
        apply In_insertIndexed in Hin. destruct Hin as [Heq|Hin].
        -- inversion Heq; subst. split; [now left|congruence].
        -- assert (In e (map snd (indexed o))) as H
             by (apply in_map_iff; exists (m, e); auto).
           apply IH in H. intuition.
      * intros [[Heq|Hin] Hne].
        -- subst e'. exists (n, e). split; [reflexivity|].
           apply In_insertIndexed. now left.
        -- assert (In e (map snd (indexed o))) as H by (apply IH; auto).
           apply in_map_iff in H. destruct H as [[m x] [Hx Hin']].
           simpl in Hx. subst x. exists (m, e). split; [reflexivity|].
           apply In_insertIndexed. now right.
    + rewrite IH. split.
      * intuition.
      * intros [[Heq|Hin] Hne]; [subst; congruence|auto].
Qed.

(** Enumeration visits exactly the own properties. *)
Lemma In_ownEntries (o : obj V) e : In e (ownEntries o) <-> In e o.
Proof.
  unfold ownEntries, named. rewrite in_app_iff, In_indexed, filter_In.
  destruct (arrayIndex (fst e)); intuition congruence.
Qed.

Lemma Forall_ownEntries (P : string * V -> Prop) (o : obj V) :
  Forall P (ownEntries o) <-> Forall P o.
Proof.
  rewrite !Forall_forall. split; intros H e He; apply H;
    now apply In_ownEntries.
Qed.

Lemma In_keys_set k (v : V) o x :
  In x (map fst (set k v o)) <-> x = k \/ In x (map fst o).
Proof.
  induction o as [|[k' v'] o IH]; simpl.
  - intuition.
  - destruct (String.eqb_spec k k'); simpl.
    + subst. intuition.
    + rewrite IH. intuition.
Qed.

Lemma In_keys_fold es : forall (acc : obj V) x,
  In x (map fst (fold_left assign es acc))
  <-> In x (map fst acc) \/ In x (map fst es).
Proof.
  induction es as [|e es IH]; intros acc x; simpl.
  - intuition.
  - rewrite IH. unfold assign. rewrite In_keys_set. intuition.
Qed.

Lemma Forall_set (P : string * V -> Prop) k (v : V) o :
  P (k, v) -> Forall P o -> Forall P (set k v o).
Proof.
  intros Hk H. induction H as [|[k' v'] o He Ho IH]; simpl.
  - constructor; auto.
  - destruct (String.eqb k k'); constructor; auto.
Qed.

Lemma Forall_fold (P : string * V -> Prop) es : forall acc : obj V,
  Forall P es -> Forall P acc -> Forall P (fold_left assign es acc).
Proof.
  induction es as [|[k v] es IH]; intros acc Hes Hacc; simpl; [assumption|].
  inversion Hes; subst. apply IH; [assumption|].
  now apply Forall_set.
Qed.

End ObjectFacts.

Lemma mem_In x l : mem x l = true <-> In x l.
Proof.
  unfold mem. rewrite existsb_exists. split.
  - intros [y [Hy E]]. apply String.eqb_eq in E. now subst.
  - intros H. exists x. split; [assumption|apply String.eqb_refl].
Qed.

Lemma mem_false x l : mem x l = false <-> ~ In x l.
Proof.
  rewrite <- mem_In. destruct (mem x l); intuition congruence.
Qed.

Lemma firstOccurrences_NoDup l : NoDup l -> firstOccurrences l = l.
Proof.
  induction 1 as [|x l Hx _ IH]; simpl; [reflexivity|].
  rewrite IH. f_equal. apply forallb_filter_id. apply forallb_forall.
  intros y Hy.
  destruct (String.eqb_spec y x); [subst; contradiction|reflexivity].
Qed.

Lemma In_firstOccurrences l x : In x (firstOccurrences l) <-> In x l.
Proof.
  induction l as [|y l IH]; simpl; [tauto|].
  rewrite filter_In, IH. destruct (String.eqb_spec x y); subst.
  - intuition.
  - intuition congruence.
Qed.

Lemma NoDup_filter {A : Type} (p : A -> bool) (l : list A) :
  NoDup l -> NoDup (filter p l).
Proof.
  induction 1 as [|x l Hx _ IH]; simpl; [constructor|].
  destruct (p x); [constructor|]; auto.
  rewrite filter_In. tauto.
Qed.

Lemma filter_twice {A : Type} (f g : A -> bool) (l : list A) :
  filter f (filter g l) = filter (fun x => f x && g x) l.
Proof.
  induction l as [|x l IH]; simpl; [reflexivity|].
  destruct (g x); simpl.
  - rewrite andb_true_r. destruct (f x); now rewrite IH.
  - now rewrite andb_false_r.
Qed.

Lemma firstOccurrences_distinct l : NoDup (firstOccurrences l).
Proof.
  induction l as [|x l IH]; simpl; constructor.
  - rewrite filter_In. intros [_ H]. now rewrite String.eqb_refl in H.
  - now apply NoDup_filter.
Qed.

Section BuildFacts.

Context {V : Type}.

Lemma keys_set k (v : V) o :
  map fst (set k v o)
  = if mem k (map fst o) then map fst o else (map fst o ++ [k])%list.
Proof.
  induction o as [|[k' v'] o IH]; simpl; [reflexivity|].
  destruct (String.eqb k k') eqn:E; simpl.
  - apply String.eqb_eq in E. now subst.
  - rewrite IH. now destruct (mem k (map fst o)).
Qed.

Lemma get_set k k' (v : V) o :
  get k (set k' v o) = if String.eqb k k' then Some v else get k o.
Proof.
  induction o as [|[k'' v''] o IH]; simpl.
  - reflexivity.
  - destruct (String.eqb_spec k' k''); simpl.
    + subst k''. now destruct (String.eqb k k').
    + rewrite IH. destruct (String.eqb_spec k k''); [|reflexivity].
      subst k''. destruct (String.eqb_spec k k'); [subst; contradiction|].
      reflexivity.
Qed.

Lemma get_app_single k (l : obj V) e :
  get k (l ++ [e])%list
  = match get k l with
    | Some v => Some v
    | None => if String.eqb k (fst e) then Some (snd e) else None
    end.
Proof.
  induction l as [|[k' v'] l IH]; simpl.
  - now destruct e.
  - now destruct (String.eqb k k').
Qed.

(** Assigning a list of properties in turn: the last assignment to a key
    decides its value. *)
Lemma get_fold k es : forall acc : obj V,
  get k (fold_left assign es acc)
  = match get k (rev es) with
    | Some v => Some v
    | None => get k acc
    end.
Proof.
  induction es as [|e es IH]; intros acc; simpl; [reflexivity|].
  rewrite IH, get_app_single. unfold assign. rewrite get_set.
  destruct (get k (rev es)); [reflexivity|].
  now destruct (String.eqb k (fst e)).
Qed.

(** ... and the first assignment to a key decides its place. *)
Lemma keys_fold es : forall acc : obj V,
  map fst (fold_left assign es acc)
  = (map fst acc
     ++ filter (fun y => negb (mem y (map fst acc)))
          (firstOccurrences (map fst es)))%list.
Proof.
  induction es as [|e es IH]; intros acc; simpl.
  - now rewrite app_nil_r.
  - rewrite IH. unfold assign. rewrite keys_set.
    destruct (mem (fst e) (map fst acc)) eqn:M; simpl.
    + f_equal. rewrite filter_twice. apply filter_ext_in. intros y _.
      destruct (String.eqb_spec y (fst e)); [subst; now rewrite M|].
      now rewrite andb_true_r.
    + rewrite <- app_assoc. simpl. do 2 f_equal.
      rewrite filter_twice. apply filter_ext_in. intros y _.
      unfold mem. rewrite existsb_app. simpl. rewrite orb_false_r.
      now rewrite negb_orb.
Qed.

Lemma NoDup_keys_fold es (acc : obj V) :
  NoDup (map fst acc) -> NoDup (map fst (fold_left assign es acc)).
Proof.
  intros H. rewrite keys_fold. apply NoDup_app; [assumption| |].
  - apply NoDup_filter, firstOccurrences_distinct.
  - intros x Hx Hx'. apply filter_In in Hx'. destruct Hx' as [_ Hx'].
    apply mem_In in Hx. now rewrite Hx in Hx'.
Qed.

(** Copying the properties of an object into a fresh one gives the same
    object again. *)
Lemma fold_assign_id (o : obj V) : forall acc : obj V,
  NoDup (map fst o) ->
  (forall k, In k (map fst o) -> ~ In k (map fst acc)) ->
  fold_left assign o acc = (acc ++ o)%list.
Proof.
  induction o as [|[k v] o IH]; intros acc Hnd Hdis; simpl.
  - now rewrite app_nil_r.
  - simpl in Hnd. inversion Hnd as [|? ? Hk Hnd']; subst.
    assert (assign acc (k, v) = (acc ++ [(k, v)])%list) as E.
    { unfold assign. simpl.
      assert (~ In k (map fst acc)) as Hn by (apply Hdis; now left).
      clear - Hn. induction acc as [|[k' v'] acc IH]; simpl; [reflexivity|].
      destruct (String.eqb_spec k k').
      - subst. exfalso. apply Hn. now left.
      - rewrite IH; [reflexivity|]. intros H. apply Hn. now right. }
    rewrite E, IH; [now rewrite <- app_assoc|assumption|].
    intros k' Hk'. rewrite map_app, in_app_iff. simpl.
    intros [H|[H|[]]].
    + apply (Hdis k'); [now right|assumption].
    + subst k'. contradiction.
Qed.

End BuildFacts.

(* ================================================================== *)
(** * Names *)

Lemma isNameStart_not_digit c :
  isNameStart c = true -> digit c = None /\ Ascii.eqb c "0" = false.
Proof.
  destruct c as [[] [] [] [] [] [] [] []]; vm_compute;
    intros H; try discriminate H; split; reflexivity.
Qed.

(** A name is never an array index. *)
Lemma isName_named s : isName s = true -> named_key s.
Proof.
  destruct s as [|c rest]; simpl; [discriminate|].
  intros H. apply andb_true_iff in H. destruct H as [_ H].
  apply isNameStart_not_digit in H. destruct H as [Hd H0].
  unfold named_key, arrayIndex. rewrite H0. simpl. now rewrite Hd.
Qed.

Lemma isName_nonempty s : isName s = true -> exists c rest, s = String c rest.
Proof.
  destruct s as [|c rest]; simpl; [discriminate|]. now exists c, rest.
Qed.

(* ================================================================== *)
(** * The schema builder *)

Section SlotSets.

Context {V : Type}.
Variable kf : MappedField -> string.
Variable vf : MappedField -> V.

Lemma In_keys_ownEntries (o : obj V) x :
  In x (map fst (ownEntries o)) <-> In x (map fst o).
Proof.
  rewrite !in_map_iff. split; intros [e [He Hin]]; exists e;
    (split; [assumption|now apply In_ownEntries]).
Qed.

Lemma In_keys_spread (a b : obj V) x :
  In x (map fst (spread a b)) <-> In x (map fst a) \/ In x (map fst b).
Proof.
  unfold spread. fold (@assign V). rewrite In_keys_fold. simpl.
  rewrite map_app, in_app_iff, !In_keys_ownEntries. tauto.
Qed.

Lemma In_keys_reduce fields : forall (acc : obj V) x,
  In x (map fst (fold_left (fun acc f => spread acc f)
                   (map (fun f => [(kf f, vf f)]) fields) acc))
  <-> In x (map fst acc) \/ In x (map kf fields).
Proof.
  induction fields as [|f fields IH]; intros acc x; simpl; [tauto|].
  rewrite IH, In_keys_spread. simpl. tauto.
Qed.

Lemma spread_single (acc : obj V) k v :
  NoDup (map fst acc) -> Forall (fun e => named_key (fst e)) acc ->
  named_key k ->
  spread acc [(k, v)] = assign acc (k, v).
Proof.
  intros Hnd Hacc Hk. unfold spread. fold (@assign V).
  rewrite (ownEntries_named acc Hacc).
  rewrite (ownEntries_named [(k, v)]) by (constructor; [exact Hk|constructor]).
  rewrite fold_left_app. simpl. f_equal.
  rewrite fold_assign_id; [reflexivity|assumption|]. intros ? _ [].
Qed.

Lemma reduce_named fields : forall acc : obj V,
  Forall (fun f => named_key (kf f)) fields ->
  NoDup (map fst acc) -> Forall (fun e => named_key (fst e)) acc ->
  fold_left (fun acc f => spread acc f)
            (map (fun f => [(kf f, vf f)]) fields) acc
  = fold_left assign (slotEntries kf vf fields) acc.
Proof.
  induction fields as [|f fields IH]; intros acc Hf Hnd Hacc; simpl;
    [reflexivity|].
  inversion Hf as [|? ? Hk Hf']; subst.
  rewrite spread_single by assumption. apply IH; [assumption| |].
  - change (assign acc (kf f, vf f)) with (fold_left assign [(kf f, vf f)] acc).
    now apply NoDup_keys_fold.
  - unfold assign. simpl. now apply Forall_set.
Qed.

(** With names for keys, the slot set lists the keys of the mapping list in
    order, each once, at the place of its first entry. *)
Lemma slotSet_named fields :
  Forall (fun f => named_key (kf f)) fields ->
  slotSet kf vf fields = fold_left assign (slotEntries kf vf fields) [].
Proof.
  intros H. apply reduce_named; [assumption|constructor|constructor].
Qed.

Lemma slotEntries_keys fields :
  map fst (slotEntries kf vf fields) = map kf fields.
Proof. unfold slotEntries. rewrite map_map. reflexivity. Qed.

Lemma keys_slotSet fields :
  Forall (fun f => named_key (kf f)) fields ->
  keys (slotSet kf vf fields) = firstOccurrences (map kf fields).
Proof.
  intros H. unfold keys. rewrite ownEntries_named.
  - rewrite slotSet_named by assumption. rewrite keys_fold. simpl.
    rewrite slotEntries_keys. apply forallb_filter_id.
    apply forallb_forall. reflexivity.
  - rewrite slotSet_named by assumption.
    apply Forall_fold; [|constructor].
    unfold slotEntries. rewrite Forall_map. exact H.
Qed.

Lemma get_slotSet fields k :
  Forall (fun f => named_key (kf f)) fields ->
  get k (slotSet kf vf fields)
  = option_map vf (List.find (fun f => String.eqb k (kf f)) (rev fields)).
Proof.
  intros H. rewrite slotSet_named by assumption. rewrite get_fold. simpl.
  unfold slotEntries. rewrite <- map_rev.
  induction (rev fields) as [|f l IH]; simpl; [reflexivity|].
  destruct (String.eqb k (kf f)); [reflexivity|]. rewrite <- IH.
  now destruct (get k (map (fun f0 => (kf f0, vf f0)) l)).
Qed.

End SlotSets.

Lemma createQuerySchema_fields fields r :
  getFields (createQuerySchema fields r)
  = slotSet sourceKey (querySlot r) fields.
Proof. reflexivity. Qed.

Lemma createMutationSchema_fields fields r :
  getFields (createMutationSchema fields r)
  = slotSet targetKey (mutationSlot r) fields.
Proof. reflexivity. Qed.

Lemma slotSet_has_keys {V : Type} kf (vf : MappedField -> V) fields f :
  In f fields -> exists v, In (kf f, v) (ownEntries (slotSet kf vf fields)).
Proof.
  intros Hf.
  assert (In (kf f) (map fst (slotSet kf vf fields))) as Hin.
  { unfold slotSet. apply In_keys_reduce. right. now apply in_map. }
  apply in_map_iff in Hin. destruct Hin as [[k v] [Hk Hin]]. simpl in Hk.
  subst k. exists v. now apply In_ownEntries.
Qed.

Lemma assertType_keys kf (vf : MappedField -> FieldConfig) fields n :
  assertType (mkObjectType n (slotSet kf vf fields)) = true ->
  Forall (fun f => isName (kf f) = true) fields.
Proof.
  unfold assertType. simpl. intros H. apply andb_true_iff in H.
  destruct H as [_ H]. rewrite forallb_forall in H.
  apply Forall_forall. intros f Hf.
  destruct (slotSet_has_keys kf vf fields f Hf) as [v Hv].
  apply H in Hv. unfold assertField in Hv. simpl in Hv.
  now apply andb_true_iff in Hv.
Qed.

Lemma assertType_slotSet kf (vf : MappedField -> FieldConfig) fields n :
  isName n = true ->
  Forall (fun f => isName (kf f) = true) fields ->
  (forall f, forallb isName (args (vf f)) = true) ->
  assertType (mkObjectType n (slotSet kf vf fields)) = true.
Proof.
  intros Hn Hk Ha. unfold assertType. simpl. rewrite Hn. simpl.
  assert (Forall (fun f => named_key (kf f)) fields) as Hnamed.
  { eapply Forall_impl; [|exact Hk]. intros f. apply isName_named. }
  apply forallb_forall. apply Forall_forall. apply Forall_ownEntries.
  rewrite slotSet_named by assumption.
  apply Forall_fold; [|constructor].
  unfold slotEntries. rewrite Forall_map.
  eapply Forall_impl; [|exact Hk]. intros f Hf. unfold assertField. simpl.
  now rewrite Hf, Ha.
Qed.

(** [createSchema] returns exactly when every key is a name, and then the
    schema holds the two slot sets. *)
Lemma createSchema_inv fields s t schema :
  createSchema fields s t = Ok schema ->
  schema = mkSchema (Some (createQuerySchema fields (resolveQuery s)))
                    (Some (createMutationSchema fields (resolveMutation t)))
  /\ Forall (fun f => isName (sourceKey f) = true) fields
  /\ Forall (fun f => isName (targetKey f) = true) fields.
Proof.
  unfold createSchema, newGraphQLSchema.
  destruct (assertType (createQuerySchema fields (resolveQuery s))) eqn:Q;
    [|discriminate].
  destruct (assertType (createMutationSchema fields (resolveMutation t)))
    eqn:M; [|discriminate].
  simpl. intros H. inversion H. split; [reflexivity|]. split.
  - exact (assertType_keys sourceKey _ fields _ Q).
  - exact (assertType_keys targetKey _ fields _ M).
Qed.

Lemma createSchema_names fields s t :
  Forall (fun f => isName (sourceKey f) = true) fields ->
  Forall (fun f => isName (targetKey f) = true) fields ->
  createSchema fields s t
  = Ok (mkSchema (Some (createQuerySchema fields (resolveQuery s)))
                 (Some (createMutationSchema fields (resolveMutation t)))).
Proof.
  intros Hs Ht. unfold createSchema, newGraphQLSchema.
  assert (assertType (createQuerySchema fields (resolveQuery s)) = true) as Q
    by (apply (assertType_slotSet sourceKey (querySlot (resolveQuery s)));
        auto).
  assert (assertType (createMutationSchema fields (resolveMutation t)) = true)
    as M
    by (apply (assertType_slotSet targetKey (mutationSlot (resolveMutation t)));
        auto).
  now rewrite Q, M.
Qed.

Lemma names_named kf (fields : list MappedField) :
  Forall (fun f => isName (kf f) = true) fields ->
  Forall (fun f => named_key (kf f)) fields.
Proof. apply Forall_impl. intros f. apply isName_named. Qed.

(* ================================================================== *)
(** * The validator *)

Lemma nodup_length_le (l : list string) :
  length (nodup string_dec l) <= length l.
Proof.
  induction l as [|x l IH]; simpl; [lia|].
  destruct (in_dec string_dec x l); simpl; lia.
Qed.

(** [fields.length === new Set(keys).size] says that no key repeats. *)
Lemma setSize_length (l : list string) :
  (length l =? setSize l)%nat = true <-> NoDup l.
Proof.
  unfold setSize. rewrite Nat.eqb_eq. split.
  - induction l as [|x l IH]; simpl; intros H; [constructor|].
    destruct (in_dec string_dec x l) as [i|n]; simpl in H.
    + pose proof (nodup_length_le l). lia.
    + constructor; [assumption|]. apply IH. lia.
  - intros H. now rewrite nodup_fixed_point.
Qed.

Lemma unique_keys {A : Type} (kf : A -> string) (l : list A) :
  (length l =? setSize (map kf l))%nat = true <-> NoDup (map kf l).
Proof. rewrite <- setSize_length. now rewrite length_map. Qed.

Lemma invariant_ok c msg : invariant c msg = Ok tt <-> c = true.
Proof. unfold invariant. destruct c; intuition discriminate. Qed.

Lemma validateProcess_checks raw :
  validateProcess raw
  = match asProcess raw with
    | Some p => checksHold p
    | None => false
    end.
Proof.
  destruct raw as [[[[[fs|] [s|] [t|]]|] [sch|]]|]; try reflexivity.
  unfold validateProcess, validateChecks, checksHold, invariant, sourceKey,
    targetKey.
  cbn [Js.bind required asProcess rawOptions rawFields rawSourceIntegration
       rawTargetIntegration rawSchema fields options schema sourceIntegration
       targetIntegration].
  repeat match goal with
         | |- context [if ?c then _ else _] =>
             match type of c with bool => idtac end;
             destruct c;
             cbn [Js.bind andb];
             rewrite ?andb_false_r;
             try reflexivity
         end.
Qed.

Lemma isSome_true {A : Type} (x : option A) : isSome x = true <-> x <> None.
Proof. destruct x; simpl; intuition congruence. Qed.

Lemma checksHold_valid p : checksHold p = true <-> validProcess p.
Proof.
  unfold checksHold, validProcess. cbv zeta. rewrite !andb_true_iff.
  rewrite !unique_keys, !isSome_true, Nat.ltb_lt, Nat.eqb_eq.
  unfold fieldCount.
  destruct (fields (options p)) as [|f fs]; simpl.
  - split; [lia|]. intros [H _]. now contradiction H.
  - split.
    + intros [[[[[[[_ H1] H2] H3] H4] H5] H6] H7].
      repeat (split; [first [assumption|discriminate]|]).
      destruct (getQueryType (schema p)) as [q|]; [|congruence].
      destruct (getMutationType (schema p)) as [m|]; [|congruence].
      now exists q, m.
    + intros (_ & H1 & H2 & H3 & H4 & q & m & Hq & Hm & Hc).
      rewrite Hq, Hm. repeat split; try assumption; try discriminate; lia.
Qed.

Lemma validateProcess_rawOf p :
  validateProcess (rawOf p) = true <-> validProcess p.
Proof.
  rewrite validateProcess_checks.
  destruct p as [[fs s t] sch]. simpl. apply checksHold_valid.
Qed.

(** A process passes the validator only if all of its parts are there. *)
Lemma validateProcess_asProcess raw :
  validateProcess raw = true ->
  exists p, asProcess raw = Some p /\ validProcess p.
Proof.
  rewrite validateProcess_checks. destruct (asProcess raw) as [p|];
    [|discriminate].
  intros H. exists p. split; [reflexivity|now apply checksHold_valid].
Qed.

(** A process built from options whose keys are names passes the validator
    exactly when its mapping list is non-empty and repeats no key on either
    side, and both resolvers are there. *)
Lemma fieldCount_createSchema fields s t schema :
  createSchema fields s t = Ok schema ->
  fieldCount (getQueryType schema)
  = length (firstOccurrences (map sourceKey fields))
  /\ fieldCount (getMutationType schema)
     = length (firstOccurrences (map targetKey fields)).
Proof.
  intros H. apply createSchema_inv in H. destruct H as (-> & Hs & Ht).
  unfold fieldCount. cbn [getQueryType getMutationType].
  rewrite createQuerySchema_fields, createMutationSchema_fields.
  rewrite !keys_slotSet by now apply names_named. tauto.
Qed.

Lemma createProcess_ok fs s t :
  fs <> [] ->
  NoDup (map sourceKey fs) -> NoDup (map targetKey fs) ->
  Forall (fun f => isName (sourceKey f) = true) fs ->
  Forall (fun f => isName (targetKey f) = true) fs ->
  resolveQuery s <> None -> resolveMutation t <> None ->
  exists schema,
    createSchema fs s t = Ok schema
    /\ createProcess (mkOptions fs s t)
       = Ok (mkProcess (mkOptions fs s t) schema).
Proof.
  intros Hne Hs Ht Hsn Htn Hq Hm.
  pose proof (createSchema_names fs s t Hsn Htn) as E.
  eexists. split; [exact E|].
  unfold createProcess. simpl. rewrite E. simpl.
  match goal with
  | |- context [validateProcess ?r] =>
      assert (validateProcess r = true) as Hv
  end.
  { apply validateProcess_rawOf. unfold validProcess.
    cbn [fields options schema sourceIntegration targetIntegration
         getQueryType getMutationType].
    repeat (split; [assumption|]).
    eexists _, _. split; [reflexivity|]. split; [reflexivity|].
    destruct (fieldCount_createSchema _ _ _ _ E) as [C1 C2].
    unfold fieldCount in C1, C2.
    cbn [getQueryType getMutationType] in C1, C2. rewrite C1, C2.
    rewrite !firstOccurrences_NoDup by assumption. now rewrite !length_map. }
  now rewrite Hv.
Qed.

(* ================================================================== *)
(** * Lookup between the two sides of a mapping list *)

Lemma find_unique_source fields f :
  NoDup (map sourceKey fields) -> In f fields ->
  List.find (fun g => String.eqb (key (sourceField f)) (key (sourceField g)))
            fields
  = Some f.
Proof.
  induction fields as [|g fields IH]; simpl; intros Hnd Hin; [contradiction|].
  inversion Hnd as [|? ? Hg Hnd']; subst.
  destruct (String.eqb_spec (key (sourceField f)) (key (sourceField g)))
    as [E|E].
  - destruct Hin as [->|Hin]; [reflexivity|].
    exfalso. apply Hg. unfold sourceKey at 1. rewrite <- E.
    change (key (sourceField f)) with (sourceKey f). now apply in_map.
  - destruct Hin as [->|Hin]; [now contradiction E|]. now apply IH.
Qed.

(** C8, as amended: in a mapping list that repeats no source key, looking a
    target key of the list up and back returns it. *)
Theorem inverse_lookup :
  forall (fields : list MappedField) (t : string),
    NoDup (map sourceKey fields) ->
    In t (map targetKey fields) ->
    inverseLookup fields t = Some t.
Proof.
  intros fields t Hnd Hin. unfold inverseLookup, findQueryFieldName, Js.find.
  destruct (List.find (fun f => String.eqb t (key (targetField f))) fields)
    as [f|] eqn:E.
  - apply find_some in E. destruct E as [Hf Et]. apply String.eqb_eq in Et.
    simpl. unfold findMutationFieldName, Js.find.
    rewrite (find_unique_source fields f Hnd Hf). simpl. now subst t.
  - exfalso. apply in_map_iff in Hin. destruct Hin as [f [Ef Hf]].
    apply (find_none _ _ E) in Hf. unfold targetKey in Ef. rewrite Ef in Hf.
    now rewrite String.eqb_refl in Hf.
Qed.

Lemma inverse_lookup_witness :
  NoDup (map sourceKey oneWriter)
  /\ In "x" (map targetKey oneWriter)
  /\ inverseLookup oneWriter "x" = Some "x".
Proof.
  assert (NoDup (map sourceKey oneWriter)) as H1
    by (simpl; constructor; [simpl; tauto|constructor]).
  assert (In "x" (map targetKey oneWriter)) as H2 by (simpl; now left).
  exact (conj H1 (conj H2 (inverse_lookup oneWriter "x" H1 H2))).
Defined.

(** C8 as stated fails: ["y"] is a target key exactly once, and the lookup
    there and back ends at ["x"]. *)
Lemma inverse_lookup_counterexample :
  count_occ string_dec (map targetKey twoWriters) "y" = 1
  /\ inverseLookup twoWriters "y" = Some "x"
  /\ inverseLookup twoWriters "y" <> Some "y".
Proof.
  split; [reflexivity|]. split; [reflexivity|]. discriminate.
Qed.

(* ================================================================== *)
(** * Uniqueness, cardinality and construction *)

(** C6: a mapping list that repeats a source key, or repeats a target key,
    is rejected by [validateProcess] whatever the rest of the process is; a
    key shared between the two sides of one entry is no reason to reject. *)
Theorem validateProcess_rejects_duplicates :
  (forall fields s t sch,
      ~ NoDup (map sourceKey fields) \/ ~ NoDup (map targetKey fields) ->
      validateProcess (rawWith fields s t sch) = false)
  /\ (forall k ty s t,
         isName k = true ->
         resolveQuery s <> None -> resolveMutation t <> None ->
         exists p,
           createProcess (mkOptions (selfMapped k ty) s t) = Ok p
           /\ validateProcess (rawOf p) = true).
Proof.
  split.
  - intros fs s t sch H. rewrite validateProcess_checks. unfold rawWith.
    destruct s as [s|], t as [t|], sch as [sch|]; try reflexivity.
    cbn [asProcess]. destruct (checksHold _) eqn:E; [|reflexivity].
    apply checksHold_valid in E. destruct E as (_ & Hs & Ht & _).
    cbn [fields options] in Hs, Ht. tauto.
  - intros k ty s t Hk Hq Hm.
    destruct (createProcess_ok (selfMapped k ty) s t) as [schema [E1 E2]];
      try assumption.
    + discriminate.
    + repeat constructor. simpl. tauto.
    + repeat constructor. simpl. tauto.
    + repeat constructor. exact Hk.
    + repeat constructor. exact Hk.
    + eexists. split; [exact E2|].
      unfold createProcess in E2. cbn [fields options sourceIntegration
        targetIntegration] in E2. rewrite E1 in E2. cbn [Js.bind] in E2.
      destruct (validateProcess _) eqn:V in E2; [|discriminate].
      exact V.
Qed.

Lemma validateProcess_rejects_duplicates_witness :
  validateProcess (rawWith duplicatedSource (Some echo) (Some echo) None)
  = false
  /\ exists p,
       createProcess (mkOptions (selfMapped "id" TNumber) echo echo) = Ok p
       /\ validateProcess (rawOf p) = true.
Proof.
  split.
  - apply (proj1 validateProcess_rejects_duplicates).
    left. intros H. inversion H as [|? ? Hin _]. apply Hin. simpl. now left.
  - apply (proj2 validateProcess_rejects_duplicates);
      [reflexivity|discriminate|discriminate].
Defined.

(** C7: for a mapping list that repeats no key on either side, the schema
    [createSchema] produces has as many query slots as mutation slots, namely
    one per entry of the list; and it does produce one when the keys are
    names. *)
Theorem createSchema_cardinality :
  forall fields s t,
    NoDup (map sourceKey fields) ->
    NoDup (map targetKey fields) ->
    (forall schema,
        createSchema fields s t = Ok schema ->
        exists q m,
          getQueryType schema = Some q /\ getMutationType schema = Some m
          /\ length (keys (getFields q)) = length fields
          /\ length (keys (getFields m)) = length fields)
    /\ (Forall (fun f => isName (sourceKey f) = true) fields ->
        Forall (fun f => isName (targetKey f) = true) fields ->
        exists schema, createSchema fields s t = Ok schema).
Proof.
  intros fs s t Hs Ht. split.
  - intros schema E.
    destruct (fieldCount_createSchema _ _ _ _ E) as [C1 C2].
    apply createSchema_inv in E. destruct E as (-> & _ & _).
    eexists _, _. split; [reflexivity|]. split; [reflexivity|].
    unfold fieldCount in C1, C2. cbn [getQueryType getMutationType] in C1, C2.
    rewrite C1, C2, !firstOccurrences_NoDup by assumption.
    now rewrite !length_map.
  - intros Hsn Htn. eexists. now apply createSchema_names.
Qed.

Lemma NoDup_scenario_source : NoDup (map sourceKey scenarioFields).
Proof.
  simpl. repeat constructor; simpl; intuition discriminate.
Defined.

Lemma NoDup_scenario_target : NoDup (map targetKey scenarioFields).
Proof.
  simpl. repeat constructor; simpl; intuition discriminate.
Defined.

Lemma createSchema_cardinality_witness :
  (forall schema,
      createSchema scenarioFields echo echo = Ok schema ->
      exists q m,
        getQueryType schema = Some q /\ getMutationType schema = Some m
        /\ length (keys (getFields q)) = 2
        /\ length (keys (getFields m)) = 2)
  /\ exists schema, createSchema scenarioFields echo echo = Ok schema.
Proof.
  destruct (createSchema_cardinality scenarioFields echo echo
              NoDup_scenario_source NoDup_scenario_target) as [H1 H2].
  split; [exact H1|].
  apply H2; repeat constructor.
Defined.

(** C9: [createProcess] raises where the validator rejects the process it
    has built -- an empty mapping list is such a case -- and returns the
    process, made of the options it was given and the schema derived from
    them, where the validator accepts it. *)
Theorem createProcess_validated :
  forall opts : ProcessOptions,
    (forall schema,
        createSchema (fields opts) (sourceIntegration opts)
                     (targetIntegration opts) = Ok schema ->
        validateProcess (rawOf (mkProcess opts schema)) = false ->
        createProcess opts = Throw (Error "Invalid process"))
    /\ (forall schema,
           createSchema (fields opts) (sourceIntegration opts)
                        (targetIntegration opts) = Ok schema ->
           validateProcess (rawOf (mkProcess opts schema)) = true ->
           createProcess opts = Ok (mkProcess opts schema))
    /\ (forall e,
           createSchema (fields opts) (sourceIntegration opts)
                        (targetIntegration opts) = Throw e ->
           createProcess opts = Throw e)
    /\ (fields opts = [] ->
        createProcess opts = Throw (Error "Invalid process")).
Proof.
  intros opts. unfold createProcess. repeat split.
  - intros schema -> V. cbn [Js.bind]. now rewrite V.
  - intros schema -> V. cbn [Js.bind]. now rewrite V.
  - intros e ->. reflexivity.
  - intros E. rewrite E.
    rewrite (createSchema_names [] _ _) by constructor. cbn [Js.bind].
    rewrite validateProcess_checks. destruct opts as [fs s t].
    cbn [fields] in E. subst fs. reflexivity.
Qed.

Lemma createProcess_validated_witness :
  createProcess (mkOptions [] echo echo) = Throw (Error "Invalid process")
  /\ exists schema,
       createProcess (mkOptions scenarioFields echo echo)
       = Ok (mkProcess (mkOptions scenarioFields echo echo) schema).
Proof.
  split.
  - apply (proj2 (proj2 (proj2
             (createProcess_validated (mkOptions [] echo echo))))).
    reflexivity.
  - eexists.
    apply (proj1 (proj2
             (createProcess_validated (mkOptions scenarioFields echo echo))));
      reflexivity.
Defined.

(** C10: whatever the mapping list, the slot names of either slot set of a
    schema that [createSchema] builds are pairwise distinct; a key that
    several entries share names a single slot, and that slot is the one made
    from the last of those entries. *)
Theorem createSchema_merges_duplicates :
  forall fields s t,
    (Forall (fun f => isName (sourceKey f) = true) fields ->
     Forall (fun f => isName (targetKey f) = true) fields ->
     exists schema, createSchema fields s t = Ok schema)
    /\
    forall schema,
    createSchema fields s t = Ok schema ->
    exists q m,
      getQueryType schema = Some q /\ getMutationType schema = Some m
      /\ NoDup (keys (getFields q))
      /\ NoDup (keys (getFields m))
      /\ (forall f, In f fields ->
            count_occ string_dec (keys (getFields q)) (sourceKey f) = 1
            /\ exists g,
                 List.find (fun g => String.eqb (sourceKey f) (sourceKey g))
                           (rev fields) = Some g
                 /\ get (sourceKey f) (getFields q)
                    = Some (querySlot (resolveQuery s) g))
      /\ (forall f, In f fields ->
            count_occ string_dec (keys (getFields m)) (targetKey f) = 1
            /\ exists g,
                 List.find (fun g => String.eqb (targetKey f) (targetKey g))
                           (rev fields) = Some g
                 /\ get (targetKey f) (getFields m)
                    = Some (mutationSlot (resolveMutation t) g)).
Proof.
  intros fs s t. split.
  { intros Hsn Htn. eexists. now apply createSchema_names. }
  intros schema E. apply createSchema_inv in E.
  destruct E as (-> & Hs & Ht).
  apply names_named in Hs. apply names_named in Ht.
  eexists _, _. split; [reflexivity|]. split; [reflexivity|].
  rewrite createQuerySchema_fields, createMutationSchema_fields.
  rewrite !keys_slotSet by assumption.
  split; [apply firstOccurrences_distinct|].
  split; [apply firstOccurrences_distinct|].
  assert (forall (kf : MappedField -> string) f,
             In f fs ->
             count_occ string_dec (firstOccurrences (map kf fs)) (kf f) = 1
             /\ exists g,
                  List.find (fun g => String.eqb (kf f) (kf g)) (rev fs)
                  = Some g) as key.
  { intros kf f Hf. split.
    - apply NoDup_count_occ'; [apply firstOccurrences_distinct|].
      apply In_firstOccurrences. now apply in_map.
    - destruct (List.find (fun g => String.eqb (kf f) (kf g)) (rev fs))
        as [g|] eqn:F; [now exists g|].
      exfalso. apply in_rev in Hf. apply (find_none _ _ F) in Hf.
      now rewrite String.eqb_refl in Hf. }
  split; intros f Hf.
  - destruct (key sourceKey f Hf) as [C [g F]]. split; [exact C|].
    exists g. split; [exact F|].
    rewrite get_slotSet by assumption. now rewrite F.
  - destruct (key targetKey f Hf) as [C [g F]]. split; [exact C|].
    exists g. split; [exact F|].
    rewrite get_slotSet by assumption. now rewrite F.
Qed.

(** C4: for a schema built from a mapping list, [createQueryString] is
    [query{], the query slot names separated by single spaces, and [}]; the
    slot names are the source keys in list order, each at its first entry.
    Without a query slot set the function raises. *)
Theorem createQueryString_text :
  forall fields s t,
    (Forall (fun f => isName (sourceKey f) = true) fields ->
     Forall (fun f => isName (targetKey f) = true) fields ->
     exists schema, createSchema fields s t = Ok schema)
    /\ (forall schema,
          createSchema fields s t = Ok schema ->
          (exists q,
              getQueryType schema = Some q
              /\ keys (getFields q) = firstOccurrences (map sourceKey fields)
              /\ createQueryString schema
                 = Ok ("query{" ++ join " " (keys (getFields q)) ++ "}"))
          /\ (NoDup (map sourceKey fields) ->
              createQueryString schema
              = Ok ("query{" ++ join " " (map sourceKey fields) ++ "}")))
    /\ (forall other,
          getQueryType other = None ->
          createQueryString other
          = Throw (Error "Schema has no query type defined")).
Proof.
  intros fs s t. split; [|split].
  - intros Hsn Htn. eexists. now apply createSchema_names.
  - intros schema E. apply createSchema_inv in E.
    destruct E as (-> & Hs & _). apply names_named in Hs.
    assert (keys (getFields (createQuerySchema fs (resolveQuery s)))
            = firstOccurrences (map sourceKey fs)) as K.
    { rewrite createQuerySchema_fields. now apply keys_slotSet. }
    split.
    + eexists. split; [reflexivity|]. split; [exact K|reflexivity].
    + intros Hnd. unfold createQueryString. cbn [getQueryType].
      now rewrite K, firstOccurrences_NoDup.
  - intros other H. unfold createQueryString. now rewrite H.
Qed.

Lemma createSchema_merges_duplicates_witness :
  createSchema duplicatedSource echo echo = Ok duplicatedSchema
  /\ exists q,
       getQueryType duplicatedSchema = Some q
       /\ keys (getFields q) = ["name"]
       /\ NoDup (keys (getFields q)).
Proof.
  assert (createSchema duplicatedSource echo echo = Ok duplicatedSchema) as E
    by reflexivity.
  split; [exact E|].
  destruct (proj2 (createSchema_merges_duplicates _ _ _) _ E)
    as (q & m & Hq & _ & Hnd & _).
  exists q. split; [exact Hq|]. split; [|exact Hnd].
  inversion Hq. reflexivity.
Defined.

Lemma createQueryString_text_witness :
  createSchema scenarioFields echo echo = Ok scenarioSchema
  /\ createQueryString scenarioSchema = Ok "query{name age}".
Proof.
  assert (createSchema scenarioFields echo echo = Ok scenarioSchema) as E
    by reflexivity.
  split; [exact E|].
  exact (proj2 (proj1 (proj2 (createQueryString_text _ _ _)) _ E)
           NoDup_scenario_source).
Defined.

(* ================================================================== *)
(** * The mutation text *)

Lemma mapM_map {A B C : Type} (g : B -> result C) (h : A -> B) (l : list A) :
  mapM (fun x => g (h x)) l = mapM g (map h l).
Proof.
  induction l as [|x l IH]; simpl; [reflexivity|]. now rewrite IH.
Qed.

Lemma mapM_ext {A B : Type} (f g : A -> result B) (l : list A) :
  (forall x, f x = g x) -> mapM f l = mapM g l.
Proof.
  intros H. induction l as [|x l IH]; simpl; [reflexivity|].
  now rewrite H, IH.
Qed.

Lemma mapM_all_ok {A B : Type} (f : A -> result B) (h : A -> B) (l : list A) :
  (forall x, In x l -> f x = Ok (h x)) -> mapM f l = Ok (map h l).
Proof.
  induction l as [|x l IH]; simpl; intros H; [reflexivity|].
  rewrite (H x) by now left. simpl. rewrite IH by (intros; apply H; now right).
  reflexivity.
Qed.

Lemma mapM_first_throw {A B : Type} (f : A -> result B) pre x post e :
  (forall y, In y pre -> exists z, f y = Ok z) ->
  f x = Throw e ->
  mapM f (pre ++ x :: post) = Throw e.
Proof.
  induction pre as [|y pre IH]; simpl; intros Hpre Hx.
  - now rewrite Hx.
  - destruct (Hpre y) as [z Hz]; [now left|]. rewrite Hz. simpl.
    rewrite IH; [reflexivity| |assumption]. intros; apply Hpre; now right.
Qed.

Lemma mapM_throws_somewhere {A B : Type} (f : A -> result B) l e :
  mapM f l = Throw e -> exists x, In x l /\ f x = Throw e.
Proof.
  induction l as [|x l IH]; simpl; [discriminate|].
  destruct (f x) as [y|e'] eqn:E; simpl.
  - destruct (mapM f l) as [ys|e'']; simpl; [discriminate|].
    intros H. inversion H; subst. destruct IH as [x' [Hin Hx']];
      [reflexivity|]. exists x'. split; [now right|assumption].
  - intros H. inversion H; subst. exists x. split; [now left|assumption].
Qed.

Lemma createMutationString_slots schema fm qr mt :
  getMutationType schema = Some mt ->
  createMutationString schema fm qr
  = (texts <- mapM (slotText fm qr) (keys (getFields mt)) ;;
     Ok ("mutation{" ++ join " " texts ++ "}")).
Proof.
  intros H. unfold createMutationString. rewrite H. unfold keys.
  rewrite <- mapM_map. f_equal. apply mapM_ext. intros e.
  unfold slotText, pairedValue, fragment. cbv zeta.
  destruct (findQueryFieldName fm (fst e)) as [[|c q]|]; reflexivity.
Qed.

Lemma slotText_paired fm qr n :
  paired fm n -> slotText fm qr n = Ok (fragment n (pairedValue fm qr n)).
Proof. intros (c & s & E). unfold slotText. now rewrite E. Qed.

Lemma slotText_unpaired fm qr n :
  ~ paired fm n -> slotText fm qr n = Throw (unpairedError n).
Proof.
  intros H. unfold slotText.
  destruct (findQueryFieldName fm n) as [[|c s]|] eqn:E; try reflexivity.
  exfalso. apply H. now exists c, s.
Qed.

(** C5: when every mutation slot has a paired source key and [queryResults]
    has an entry for it, [createMutationString] is [mutation{], one fragment
    per mutation slot in descriptor order separated by single spaces, and
    [}]; a fragment is the slot name, [(resolvedQuery:], and between double
    quotes the entry's value as it stands. *)
Theorem createMutationString_text :
  forall schema fieldMappings queryResults mt,
    getMutationType schema = Some mt ->
    (forall n, In n (keys (getFields mt)) ->
       exists c s v,
         findQueryFieldName fieldMappings n = Some (String c s)
         /\ get (String c s) queryResults = Some v) ->
    createMutationString schema fieldMappings queryResults
    = Ok ("mutation{"
          ++ join " "
               (map (fun n =>
                       fragment n (pairedValue fieldMappings queryResults n))
                    (keys (getFields mt)))
          ++ "}")
    /\ (forall n, In n (keys (getFields mt)) ->
          exists q,
            findQueryFieldName fieldMappings n = Some q
            /\ get q queryResults
               = Some (pairedValue fieldMappings queryResults n))
    /\ (forall n text,
          pairedValue fieldMappings queryResults n = VString text ->
          fragment n (pairedValue fieldMappings queryResults n)
          = n ++ "(resolvedQuery:" ++ dquote ++ text ++ dquote ++ ")").
Proof.
  intros schema fm qr mt Hmt Hall. split; [|split].
  - rewrite (createMutationString_slots _ _ _ _ Hmt).
    rewrite (mapM_all_ok _
               (fun n => fragment n (pairedValue fm qr n))); [reflexivity|].
    intros n Hn. apply slotText_paired.
    destruct (Hall n Hn) as (c & s & _ & E & _). now exists c, s.
  - intros n Hn. destruct (Hall n Hn) as (c & s & v & E & G).
    exists (String c s). split; [exact E|].
    unfold pairedValue. now rewrite E, G.
  - intros n text E. now rewrite E.
Qed.



Lemma createMutationString_text_witness :
  createMutationString scenarioSchema scenarioFields scenarioResults
  = Ok ("mutation{fullName(resolvedQuery:" ++ dquote ++ "source_name_value"
        ++ dquote ++ ") userAge(resolvedQuery:" ++ dquote
        ++ "source_age_value" ++ dquote ++ ")}").
Proof.
  refine (proj1 (createMutationString_text scenarioSchema scenarioFields
                   scenarioResults
                   (createMutationSchema scenarioFields (resolveMutation echo))
                   eq_refl _)).
  intros n [<-|[<-|[]]].
  - exists "n"%char, "ame", (VString "source_name_value"). split; reflexivity.
  - exists "a"%char, "ge", (VString "source_age_value"). split; reflexivity.
Defined.


(* ================================================================== *)
(** * Reading the generated texts back *)

Lemma sapp_assoc (a b c : string) : (a ++ b) ++ c = a ++ b ++ c.
Proof. induction a as [|x a IH]; simpl; [reflexivity|now rewrite IH]. Qed.

Lemma sapp_nil_r (a : string) : a ++ "" = a.
Proof. induction a as [|x a IH]; simpl; [reflexivity|now rewrite IH]. Qed.

Lemma option_map_app_nil {A : Type} (x : option (list A)) :
  option_map (app []) x = x.
Proof. now destruct x. Qed.

Lemma option_map_app_app {A : Type} (l1 l2 : list A) (x : option (list A)) :
  option_map (app l1) (option_map (app l2) x)
  = option_map (app (l1 ++ l2)%list) x.
Proof. destruct x; simpl; [now rewrite app_assoc|reflexivity]. Qed.

Lemma startToken_nameStart c :
  isNameStart c = true -> startToken c = Some ([], InName (String c "")).
Proof.
  destruct c as [[] [] [] [] [] [] [] []]; vm_compute;
    intros H; try discriminate H; reflexivity.
Qed.

Lemma plain_not_quote c :
  isPlainChar c = true -> Ascii.eqb c "034" = false.
Proof.
  destruct c as [[] [] [] [] [] [] [] []]; vm_compute;
    intros H; try discriminate H; reflexivity.
Qed.

Lemma lex_name_chars m : forall acc rest,
  allChars isNameContinue m = true ->
  lex (InName acc) (m ++ rest) = lex (InName (acc ++ m)) rest.
Proof.
  induction m as [|c m IH]; intros acc rest H; simpl.
  - now rewrite sapp_nil_r.
  - simpl in H. apply andb_true_iff in H. destruct H as [Hc Hm].
    rewrite Hc. rewrite option_map_app_nil. rewrite IH by assumption.
    unfold snoc. now rewrite sapp_assoc.
Qed.

Lemma lex_name_end acc c r :
  isNameContinue c = false ->
  lex (InName acc) (String c r)
  = option_map (app [NAME acc]) (lex Idle (String c r)).
Proof.
  intros H. simpl. rewrite H. unfold after.
  destruct (startToken c) as [[ts st']|]; simpl; [|reflexivity].
  now destruct (lex st' r).
Qed.

(** A name is read back as one token when what follows cannot continue
    it. *)
Lemma lex_name n c r :
  isName n = true -> isNameContinue c = false ->
  lex Idle (n ++ String c r)
  = option_map (app [NAME n]) (lex Idle (String c r)).
Proof.
  destruct n as [|c0 m]; simpl; [discriminate|]. intros H Hc.
  apply andb_true_iff in H. destruct H as [Hm H0].
  rewrite (startToken_nameStart c0 H0). rewrite option_map_app_nil.
  rewrite lex_name_chars by assumption. simpl append.
  now apply lex_name_end.
Qed.

Lemma lex_string_chars v : forall acc rest,
  isPlain v = true ->
  lex (InString acc) (v ++ rest) = lex (InString (acc ++ v)) rest.
Proof.
  induction v as [|c v IH]; intros acc rest H; simpl.
  - now rewrite sapp_nil_r.
  - unfold isPlain in H. simpl in H. apply andb_true_iff in H.
    destruct H as [Hc Hv]. rewrite (plain_not_quote c Hc), Hc.
    rewrite option_map_app_nil. rewrite IH by assumption.
    unfold snoc. now rewrite sapp_assoc.
Qed.

Lemma lex_string_close acc rest :
  lex (InString acc) (dquote ++ ")" ++ rest)
  = option_map (app [STRING acc; PAREN_R]) (lex Idle rest).
Proof.
  destruct acc as [|c acc]; simpl; now destruct (lex Idle rest).
Qed.

Lemma lex_argument_open rest :
  lex Idle ("(resolvedQuery:" ++ dquote ++ rest)
  = option_map (app [PAREN_L; NAME "resolvedQuery"; COLON])
               (lex (InString "") rest).
Proof. simpl. now destruct (lex (InString "") rest). Qed.

(** The text of a mutation slot is read back as the six tokens of a field
    with one string argument, the string being the value's text. *)
Lemma lex_fragment n v rest :
  isName n = true -> isPlain (toString v) = true ->
  lex Idle (fragment n v ++ rest)
  = option_map
      (app [NAME n; PAREN_L; NAME "resolvedQuery"; COLON;
            STRING (toString v); PAREN_R])
      (lex Idle rest).
Proof.
  intros Hn Hv. unfold fragment. rewrite !sapp_assoc.
  change ("(resolvedQuery:" ++ dquote ++ toString v ++ dquote ++ ")" ++ rest)
    with (String "(" ("resolvedQuery:" ++ dquote ++ toString v ++ dquote
                        ++ ")" ++ rest)).
  rewrite lex_name by (assumption || reflexivity).
  change (String "(" ("resolvedQuery:" ++ dquote ++ toString v ++ dquote
                        ++ ")" ++ rest))
    with ("(resolvedQuery:" ++ dquote ++ toString v ++ dquote ++ ")" ++ rest).
  rewrite lex_argument_open, lex_string_chars by assumption.
  simpl append at 1. rewrite lex_string_close.
  rewrite !option_map_app_app. reflexivity.
Qed.

Section Joined.

Context {A : Type}.
Variable text : A -> string.
Variable toks : A -> list Token.
Variable good : A -> Prop.

Hypothesis lex_item : forall a c r,
  good a -> isNameContinue c = false ->
  lex Idle (text a ++ String c r)
  = option_map (app (toks a)) (lex Idle (String c r)).

(** Items joined by single spaces and closed by a brace are read back item
    by item. *)
Lemma lex_joined items :
  Forall good items ->
  lex Idle (join " " (map text items) ++ "}")
  = Some (flat_map toks items ++ [BRACE_R])%list.
Proof.
  induction items as [|a items IH]; intros H; [reflexivity|].
  inversion H as [|? ? Ha Hitems]; subst.
  destruct items as [|b items].
  - simpl. rewrite lex_item; [|assumption|reflexivity].
    simpl. f_equal. rewrite app_nil_r. reflexivity.
  - change (join " " (map text (a :: b :: items)))
      with (text a ++ " " ++ join " " (map text (b :: items))).
    rewrite !sapp_assoc.
    change (" " ++ join " " (map text (b :: items)) ++ "}")
      with (String " " (join " " (map text (b :: items)) ++ "}")).
    rewrite lex_item; [|assumption|reflexivity].
    change (lex Idle (String " " (join " " (map text (b :: items)) ++ "}")))
      with (option_map (app [])
              (lex Idle (join " " (map text (b :: items)) ++ "}"))).
    rewrite option_map_app_nil, IH by assumption.
    simpl. f_equal. now rewrite !app_assoc.
Qed.

End Joined.

Lemma parseSelections_names names :
  parseSelections (flat_map (fun n => [NAME n]) names ++ [BRACE_R])%list
  = Some (map queryNode names).
Proof.
  induction names as [|n names IH]; [reflexivity|].
  simpl flat_map. simpl app.
  destruct names as [|n' names].
  - reflexivity.
  - change (parseSelections
              (NAME n :: (flat_map (fun n => [NAME n]) (n' :: names)
                          ++ [BRACE_R])%list))
      with (option_map (cons (queryNode n))
              (parseSelections
                 (flat_map (fun n => [NAME n]) (n' :: names)
                  ++ [BRACE_R])%list)).
    now rewrite IH.
Qed.

Lemma parseSelections_fragments items :
  parseSelections (flat_map fragmentTokens items ++ [BRACE_R])%list
  = Some (map mutationNode items).
Proof.
  induction items as [|a items IH]; [reflexivity|].
  simpl. now rewrite IH.
Qed.

Lemma distinct_NoDup l : NoDup l -> distinct l = true.
Proof.
  induction 1 as [|x l Hx _ IH]; simpl; [reflexivity|].
  rewrite IH, andb_true_r. apply negb_true_iff.
  change (mem x l = false). now apply mem_false.
Qed.

Lemma lex_query_open rest :
  lex Idle ("query{" ++ rest)
  = option_map (app [NAME "query"; BRACE_L]) (lex Idle rest).
Proof. simpl. now destruct (lex Idle rest). Qed.

Lemma lex_mutation_open rest :
  lex Idle ("mutation{" ++ rest)
  = option_map (app [NAME "mutation"; BRACE_L]) (lex Idle rest).
Proof. simpl. now destruct (lex Idle rest). Qed.

Lemma covered_nodes {A : Type} (node : A -> FieldNode) (items : list A) :
  items <> [] ->
  NoDup (map (fun a => fieldName (node a)) items) ->
  Forall (fun a => isReserved (fieldName (node a)) = false) items ->
  coveredSelections (map node items) = true.
Proof.
  intros Hne Hnd Hr. unfold coveredSelections.
  rewrite map_map, (distinct_NoDup _ Hnd).
  assert (forallb (fun f => negb (isReserved (fieldName f))) (map node items)
          = true) as R.
  { apply forallb_forall. intros f Hf. apply in_map_iff in Hf.
    destruct Hf as [a [<- Ha]]. rewrite Forall_forall in Hr.
    apply negb_true_iff. now apply Hr. }
  rewrite R. destruct items; [now contradiction Hne|reflexivity].
Qed.

(** The query text of a slot set whose names are names, distinct and not
    reserved is within the covered language, and asks for each slot. *)
Lemma parse_query names :
  names <> [] -> NoDup names ->
  Forall (fun n => isName n = true) names ->
  Forall (fun n => isReserved n = false) names ->
  parse ("query{" ++ join " " names ++ "}")
  = Some (mkDocument OpQuery (map queryNode names)).
Proof.
  intros Hne Hnd Hn Hr. unfold parse.
  rewrite lex_query_open.
  rewrite <- (map_id names) at 1.
  rewrite (lex_joined (fun n => n) (fun n => [NAME n])
             (fun n => isName n = true));
    [|intros; now apply lex_name|exact Hn].
  cbn [option_map app]. cbv iota beta.
  change (parseOperationType "query") with (Some OpQuery).
  rewrite parseSelections_names. cbv iota beta.
  rewrite covered_nodes; [reflexivity|assumption| |].
  - unfold queryNode. simpl. now rewrite map_id.
  - exact Hr.
Qed.

(** The mutation text of slots whose names are names, distinct and not
    reserved, and whose values have plain texts, is within the covered
    language: each slot is asked for with the text of its value. *)
Lemma parse_mutation (items : list (string * value)) :
  items <> [] -> NoDup (map fst items) ->
  Forall (fun it => isName (fst it) = true
                    /\ isPlain (toString (snd it)) = true) items ->
  Forall (fun it => isReserved (fst it) = false) items ->
  parse ("mutation{"
         ++ join " " (map (fun it => fragment (fst it) (snd it)) items)
         ++ "}")
  = Some (mkDocument OpMutation (map mutationNode items)).
Proof.
  intros Hne Hnd Hn Hr. unfold parse.
  rewrite lex_mutation_open.
  rewrite (lex_joined (fun it => fragment (fst it) (snd it)) fragmentTokens
             (fun it => isName (fst it) = true
                        /\ isPlain (toString (snd it)) = true));
    [|intros a c r [H1 H2] _; now apply lex_fragment|exact Hn].
  cbn [option_map app]. cbv iota beta.
  change (parseOperationType "mutation") with (Some OpMutation).
  rewrite parseSelections_fragments. cbv iota beta.
  rewrite covered_nodes; [reflexivity|assumption|exact Hnd|exact Hr].
Qed.

Lemma executeFields_map t nodes :
  executeFields t nodes
  = (map (fun nd => (fieldName nd, fst (executeField t nd))) nodes,
     flat_map (fun nd => snd (executeField t nd)) nodes).
Proof.
  induction nodes as [|nd nodes IH]; simpl; [reflexivity|].
  rewrite IH. now destruct (executeField t nd).
Qed.

(* ================================================================== *)
(** * The two phases on a process built by [createProcess] *)

Lemma resolve_querySlot r g a :
  resolve (querySlot r g) a = callQuery r (sourceKey g).
Proof. reflexivity. Qed.

Lemma resolve_mutationSlot r g v :
  resolve (mutationSlot r g) [("resolvedQuery", v)]
  = callMutation r (targetKey g) v.
Proof. reflexivity. Qed.

Lemma find_last_with {A : Type} (kf : A -> string) (l : list A) (a : A) :
  In a l ->
  exists b, In b l /\ kf b = kf a
            /\ List.find (fun x => String.eqb (kf a) (kf x)) (rev l) = Some b.
Proof.
  intros Ha.
  destruct (List.find (fun x => String.eqb (kf a) (kf x)) (rev l))
    as [b|] eqn:F.
  - apply find_some in F. destruct F as [Hb E]. apply String.eqb_eq in E.
    exists b. split; [now apply in_rev|]. split; [now symmetry|reflexivity].
  - exfalso. apply in_rev in Ha. apply (find_none _ _ F) in Ha.
    now rewrite String.eqb_refl in Ha.
Qed.

Lemma get_keyed {V : Type} (kf : MappedField -> string) (val : string -> V)
  (l : list MappedField) (f : MappedField) :
  In f l ->
  get (kf f) (map (fun g => (kf g, val (kf g))) l) = Some (val (kf f)).
Proof.
  induction l as [|g l IH]; simpl; intros H; [contradiction|].
  destruct (String.eqb_spec (kf f) (kf g)) as [E|E]; [now rewrite E|].
  destruct H as [->|H]; [now contradiction E|now apply IH].
Qed.

Lemma find_unique_target fields f :
  NoDup (map targetKey fields) -> In f fields ->
  List.find (fun g => String.eqb (key (targetField f)) (key (targetField g)))
            fields
  = Some f.
Proof.
  induction fields as [|g fields IH]; simpl; intros Hnd Hin; [contradiction|].
  inversion Hnd as [|? ? Hg Hnd']; subst.
  destruct (String.eqb_spec (key (targetField f)) (key (targetField g)))
    as [E|E].
  - destruct Hin as [->|Hin]; [reflexivity|].
    exfalso. apply Hg. unfold targetKey at 1. rewrite <- E.
    change (key (targetField f)) with (targetKey f). now apply in_map.
  - destruct Hin as [->|Hin]; [now contradiction E|]. now apply IH.
Qed.

Section SlotSetFacts.

Variable kf : MappedField -> string.
Variable vf : MappedField -> FieldConfig.
Variable fs : list MappedField.
Variable tn : string.

Hypothesis names : Forall (fun f => isName (kf f) = true) fs.

Let T : GraphQLObjectType := mkObjectType tn (slotSet kf vf fs).

Lemma get_slot f :
  In f fs ->
  exists g, In g fs /\ kf g = kf f
            /\ get (kf f) (slotSet kf vf fs) = Some (vf g).
Proof.
  intros Hf. destruct (find_last_with kf fs f Hf) as (g & Hg & E & F).
  exists g. split; [exact Hg|]. split; [exact E|].
  rewrite get_slotSet by now apply names_named. now rewrite F.
Qed.

Lemma keys_slots : NoDup (map kf fs) -> keys (getFields T) = map kf fs.
Proof.
  intros Hnd. unfold T. cbn [getFields].
  rewrite keys_slotSet by now apply names_named.
  now apply firstOccurrences_NoDup.
Qed.

Lemma validType_slots :
  isReserved tn = false -> fs <> [] ->
  Forall (fun f => validField (kf f, vf f) = true) fs ->
  validType T = true.
Proof.
  intros Htn Hne Hv. unfold validType, T. cbn [typeName getFields].
  rewrite Htn. cbn [negb andb].
  rewrite slotSet_named by now apply names_named.
  assert (Forall (fun e => validField e = true)
            (fold_left assign (slotEntries kf vf fs) [])) as F.
  { apply Forall_fold; [|constructor]. unfold slotEntries.
    now rewrite Forall_map. }
  rewrite Forall_forall in F. rewrite <- forallb_forall in F. rewrite F.
  destruct fs as [|f l]; [now contradiction Hne|].
  assert (In (kf f)
             (map fst (fold_left assign (slotEntries kf vf (f :: l)) [])))
    as Hin.
  { apply In_keys_fold. right. rewrite slotEntries_keys. now left. }
  destruct (fold_left assign (slotEntries kf vf (f :: l)) []);
    [contradiction|reflexivity].
Qed.

(** A reserved key makes the type fail schema validation. *)
Lemma validType_reserved f :
  In f fs -> isReserved (kf f) = true -> validType T = false.
Proof.
  intros Hf Hr. unfold validType.
  destruct (get_slot f Hf) as (g & Hg & E & G).
  change (slotSet kf vf fs) with (getFields T) in G.
  assert (forallb validField (getFields T) = false) as F.
  { destruct (forallb validField (getFields T)) eqn:F; [|reflexivity].
    rewrite forallb_forall in F.
    assert (In (kf f, vf g) (getFields T)) as Hin.
    { clear - G. induction (getFields T) as [|[k v] o IH]; simpl in *;
        [discriminate|].
      destruct (String.eqb_spec (kf f) k).
      - inversion G; subst. now left.
      - right. now apply IH. }
    apply F in Hin. unfold validField in Hin. simpl in Hin.
    now rewrite Hr in Hin. }
  rewrite F. now rewrite andb_false_r.
Qed.

End SlotSetFacts.

Section Pipeline.

Variable beyond : GraphQLSchema -> string -> ExecutionResult.
Variable printErrors : list GqlError -> string.
Variable fs : list MappedField.
Variables s t : Integration.

Hypothesis nonempty : fs <> [].
Hypothesis sourceDistinct : NoDup (map sourceKey fs).
Hypothesis targetDistinct : NoDup (map targetKey fs).
Hypothesis sourceNames : Forall (fun f => isName (sourceKey f) = true) fs.
Hypothesis targetNames : Forall (fun f => isName (targetKey f) = true) fs.

Let rq := resolveQuery s.
Let rm := resolveMutation t.
Let Q : GraphQLObjectType := createQuerySchema fs rq.
Let M : GraphQLObjectType := createMutationSchema fs rm.
Let sch : GraphQLSchema := mkSchema (Some Q) (Some M).

Lemma fields_Q : getFields Q = slotSet sourceKey (querySlot rq) fs.
Proof. reflexivity. Qed.

Lemma fields_M : getFields M = slotSet targetKey (mutationSlot rm) fs.
Proof. reflexivity. Qed.

Lemma keys_Q : keys (getFields Q) = map sourceKey fs.
Proof. now apply (keys_slots sourceKey (querySlot rq) fs). Qed.

Lemma keys_M : keys (getFields M) = map targetKey fs.
Proof. now apply (keys_slots targetKey (mutationSlot rm) fs). Qed.

Lemma executeField_Q f :
  In f fs ->
  executeField Q (queryNode (sourceKey f))
  = completed (sourceKey f) (callQuery rq (sourceKey f)).
Proof.
  intros Hf. unfold executeField. cbn [fieldName queryNode].
  destruct (get_slot sourceKey (querySlot rq) fs sourceNames f Hf)
    as (g & _ & E & G).
  rewrite fields_Q, G, resolve_querySlot, E. unfold completed.
  now destruct (callQuery rq (sourceKey f)).
Qed.

Lemma executeFields_Q l :
  incl l fs ->
  executeFields Q (map queryNode (map sourceKey l))
  = (queryData rq l, queryErrors rq l).
Proof.
  induction l as [|f l IH]; intros Hl; [reflexivity|].
  cbn [map executeFields].
  rewrite executeField_Q by (apply Hl; now left).
  rewrite IH by (intros x Hx; apply Hl; now right).
  unfold queryData, queryErrors. cbn [map flat_map].
  now destruct (completed (sourceKey f) (callQuery rq (sourceKey f))).
Qed.

Lemma validate_Q :
  validate Q (mkDocument OpQuery (map queryNode (map sourceKey fs))) = true.
Proof.
  unfold validate. cbn [selections]. apply forallb_forall. intros nd Hnd.
  rewrite map_map in Hnd. apply in_map_iff in Hnd.
  destruct Hnd as [f [<- Hf]]. unfold validSelection.
  cbn [fieldName queryNode argument].
  destruct (get_slot sourceKey (querySlot rq) fs sourceNames f Hf)
    as (g & _ & _ & G).
  now rewrite fields_Q, G.
Qed.

Hypothesis sourceFree : Forall (fun f => isReserved (sourceKey f) = false) fs.
Hypothesis targetFree : Forall (fun f => isReserved (targetKey f) = false) fs.

Lemma validateSchema_built : validateSchema sch = true.
Proof.
  assert (validType Q = true) as VQ.
  { apply (validType_slots sourceKey (querySlot rq) fs "RootQueryType");
      try assumption; try reflexivity.
    eapply Forall_impl; [|exact sourceFree]. intros f Hf.
    unfold validField. cbn [fst snd]. rewrite Hf. reflexivity. }
  assert (validType M = true) as VM.
  { apply (validType_slots targetKey (mutationSlot rm) fs "RootMutationType");
      try assumption; try reflexivity.
    eapply Forall_impl; [|exact targetFree]. intros f Hf.
    unfold validField. cbn [fst snd]. rewrite Hf. reflexivity. }
  unfold validateSchema, sch. cbn [getQueryType getMutationType].
  now rewrite VQ, VM.
Qed.

(** The query phase: every slot is asked for, in list order. *)
Lemma graphql_query :
  graphql beyond sch ("query{" ++ join " " (keys (getFields Q)) ++ "}")
  = resultOf (queryData rq fs) (queryErrors rq fs).
Proof.
  unfold graphql. rewrite validateSchema_built. cbn [negb].
  rewrite keys_Q, parse_query.
  - cbn [operation rootType]. unfold sch. cbn [getQueryType].
    rewrite validate_Q. unfold execute. cbn [selections].
    rewrite executeFields_Q by apply incl_refl. reflexivity.
  - destruct fs; [now contradiction nonempty|discriminate].
  - exact sourceDistinct.
  - now rewrite Forall_map.
  - now rewrite Forall_map.
Qed.

(** The query result of an entry, as the mutation text will show it. *)
Let qv (f : MappedField) : value :=
  fst (completed (sourceKey f) (callQuery rq (sourceKey f))).

Let items : list (string * value) := map (fun f => (targetKey f, qv f)) fs.

Lemma findQuery_built f :
  In f fs -> findQueryFieldName fs (targetKey f) = Some (sourceKey f).
Proof.
  intros Hf. unfold findQueryFieldName, Js.find, targetKey.
  now rewrite (find_unique_target fs f targetDistinct Hf).
Qed.

Lemma get_queryData f :
  In f fs -> get (sourceKey f) (queryData rq fs) = Some (qv f).
Proof.
  intros Hf.
  exact (get_keyed sourceKey (fun k => fst (completed k (callQuery rq k)))
           fs f Hf).
Qed.

Lemma pairedValue_built f :
  In f fs -> pairedValue fs (queryData rq fs) (targetKey f) = qv f.
Proof.
  intros Hf. unfold pairedValue.
  now rewrite (findQuery_built f Hf), (get_queryData f Hf).
Qed.

Lemma paired_built f : In f fs -> paired fs (targetKey f).
Proof.
  intros Hf. unfold paired. rewrite (findQuery_built f Hf).
  rewrite Forall_forall in sourceNames.
  destruct (isName_nonempty _ (sourceNames f Hf)) as (c & r & E).
  exists c, r. now rewrite E.
Qed.

Lemma createMutationString_built :
  createMutationString sch fs (queryData rq fs)
  = Ok ("mutation{"
        ++ join " " (map (fun it => fragment (fst it) (snd it)) items)
        ++ "}").
Proof.
  rewrite (createMutationString_slots sch fs _ M eq_refl), keys_M.
  rewrite (mapM_all_ok _
             (fun n => fragment n (pairedValue fs (queryData rq fs) n))).
  - cbn [Js.bind].
    replace (map (fun it => fragment (fst it) (snd it)) items)
      with (map (fun n => fragment n (pairedValue fs (queryData rq fs) n))
              (map targetKey fs)); [reflexivity|].
    unfold items. rewrite !map_map.
    apply map_ext_in. intros f Hf. cbn [fst snd].
    now rewrite pairedValue_built.
  - intros n Hn. apply in_map_iff in Hn. destruct Hn as [f [<- Hf]].
    apply slotText_paired. now apply paired_built.
Qed.

Lemma executeField_M f :
  In f fs ->
  executeField M (mutationNode (targetKey f, qv f))
  = completed (targetKey f) (mutationOutcome rq rm f).
Proof.
  intros Hf. unfold executeField.
  change (argumentValues (mutationNode (targetKey f, qv f)))
    with [("resolvedQuery", wireValue rq f)].
  change (fieldName (mutationNode (targetKey f, qv f))) with (targetKey f).
  destruct (get_slot targetKey (mutationSlot rm) fs targetNames f Hf)
    as (g & _ & E & G).
  rewrite fields_M, G.
  rewrite resolve_mutationSlot, E. unfold completed, mutationOutcome.
  now destruct (callMutation rm (targetKey f) (wireValue rq f)).
Qed.

Lemma executeFields_M l :
  incl l fs ->
  executeFields M
    (map mutationNode (map (fun f => (targetKey f, qv f)) l))
  = (mutationData rq rm l, mutationErrors rq rm l).
Proof.
  induction l as [|f l IH]; intros Hl; [reflexivity|].
  cbn [map executeFields].
  rewrite executeField_M by (apply Hl; now left).
  rewrite IH by (intros x Hx; apply Hl; now right).
  unfold mutationData, mutationErrors. cbn [map flat_map].
  now destruct (completed (targetKey f) (mutationOutcome rq rm f)).
Qed.

Lemma validate_M :
  validate M (mkDocument OpMutation (map mutationNode items)) = true.
Proof.
  unfold validate. cbn [selections]. apply forallb_forall. intros nd Hnd.
  unfold items in Hnd. rewrite map_map in Hnd. apply in_map_iff in Hnd.
  destruct Hnd as [f [<- Hf]]. unfold validSelection.
  cbn [fieldName mutationNode argument fst snd].
  destruct (get_slot targetKey (mutationSlot rm) fs targetNames f Hf)
    as (g & _ & _ & G).
  rewrite fields_M, G. reflexivity.
Qed.

Hypothesis plainResults :
  Forall (fun f => isPlain (toString (qv f)) = true) fs.

(** The mutation phase: every slot is called with the text of its paired
    query result. *)
Lemma graphql_mutation :
  graphql beyond sch
    ("mutation{"
     ++ join " " (map (fun it => fragment (fst it) (snd it)) items) ++ "}")
  = resultOf (mutationData rq rm fs) (mutationErrors rq rm fs).
Proof.
  unfold graphql. rewrite validateSchema_built. cbn [negb].
  rewrite parse_mutation.
  - cbn [operation rootType]. unfold sch. cbn [getMutationType].
    rewrite validate_M. unfold execute. cbn [selections].
    unfold items. rewrite executeFields_M by apply incl_refl. reflexivity.
  - unfold items. destruct fs; [now contradiction nonempty|discriminate].
  - unfold items. rewrite map_map. exact targetDistinct.
  - unfold items. rewrite Forall_map. cbn [fst snd].
    rewrite Forall_forall in *. intros f Hf. split; auto.
  - unfold items. rewrite Forall_map. exact targetFree.
Qed.

(** Both phases in turn. *)
Lemma sync_built :
  validateProcess (rawOf (mkProcess (mkOptions fs s t) sch)) = true ->
  sync beyond printErrors (rawOf (mkProcess (mkOptions fs s t) sch))
  = Ok (match queryErrors rq fs, mutationErrors rq rm fs with
        | [], [] => Some (mutationData rq rm fs)
        | _, _ => None
        end).
Proof.
  intros V. unfold sync. rewrite V. cbn [negb asProcess rawOf rawOfOptions
    options schema fields sourceIntegration targetIntegration Js.bind].
  unfold resolveSource. cbn [schema]. unfold createQueryString.
  cbn [getQueryType sch Js.bind]. rewrite graphql_query.
  unfold resultOf. cbn [errors data].
  destruct (queryErrors rq fs) as [|e es]; [|reflexivity].
  cbn [Js.bind tryCatch]. unfold resolveTarget. cbn [schema options fields].
  rewrite createMutationString_built. cbn [Js.bind].
  rewrite graphql_mutation. unfold resultOf. cbn [errors data].
  now destruct (mutationErrors rq rm fs).
Qed.

End Pipeline.

Lemma createProcess_inv opts p :
  createProcess opts = Ok p ->
  p = mkProcess opts
        (mkSchema
           (Some (createQuerySchema (fields opts)
                    (resolveQuery (sourceIntegration opts))))
           (Some (createMutationSchema (fields opts)
                    (resolveMutation (targetIntegration opts)))))
  /\ validProcess p
  /\ Forall (fun f => isName (sourceKey f) = true) (fields opts)
  /\ Forall (fun f => isName (targetKey f) = true) (fields opts).
Proof.
  unfold createProcess.
  destruct (createSchema (fields opts) (sourceIntegration opts)
              (targetIntegration opts)) as [schema|e] eqn:E; [|discriminate].
  cbn [Js.bind].
  destruct (validateProcess (rawOf (mkProcess opts schema))) eqn:V;
    [|discriminate].
  cbn [negb]. intros H. inversion H; subst p.
  apply createSchema_inv in E. destruct E as (E & Hs & Ht).
  apply validateProcess_rawOf in V. rewrite E in *. auto.
Qed.

Section SyncFacts.

Variable beyond : GraphQLSchema -> string -> ExecutionResult.
Variable printErrors : list GqlError -> string.

(** [sync] on a process that passed the validator: the two phases in turn,
    any exception giving [null]. *)
Lemma sync_valid raw p :
  validateProcess raw = true -> asProcess raw = Some p ->
  sync beyond printErrors raw
  = Ok (match resolveSource beyond printErrors p with
        | Throw _ => None
        | Ok q =>
            match resolveTarget beyond printErrors p q with
            | Throw _ => None
            | Ok m => m
            end
        end).
Proof.
  intros V A. unfold sync. rewrite V, A. cbn [negb Js.bind].
  destruct (resolveSource beyond printErrors p) as [q|e]; [|reflexivity].
  cbn [Js.bind].
  now destruct (resolveTarget beyond printErrors p q).
Qed.

Lemma sync_invalid raw :
  validateProcess raw = false -> sync beyond printErrors raw = Ok None.
Proof. intros V. unfold sync. now rewrite V. Qed.

(** A schema that fails validation answers every request with errors. *)
Lemma resolveSource_invalid_schema p :
  validateSchema (schema p) = false ->
  exists e, resolveSource beyond printErrors p = Throw e.
Proof.
  intros V. unfold resolveSource.
  destruct (createQueryString (schema p)) as [query|e]; [|now exists e].
  cbn [Js.bind]. unfold graphql. rewrite V. cbn [negb errors].
  eexists. reflexivity.
Qed.

Variable fs : list MappedField.
Variables s t : Integration.

Let sch : GraphQLSchema :=
  mkSchema (Some (createQuerySchema fs (resolveQuery s)))
           (Some (createMutationSchema fs (resolveMutation t))).
Let built : Process := mkProcess (mkOptions fs s t) sch.

Hypothesis valid : validProcess built.
Hypothesis sourceNames : Forall (fun f => isName (sourceKey f) = true) fs.
Hypothesis targetNames : Forall (fun f => isName (targetKey f) = true) fs.

Lemma built_free_or_invalid :
  (Forall (fun f => isReserved (sourceKey f) = false) fs
   /\ Forall (fun f => isReserved (targetKey f) = false) fs)
  \/ validateSchema sch = false.
Proof.
  destruct (forallb (fun f => negb (isReserved (sourceKey f))) fs) eqn:A.
  - destruct (forallb (fun f => negb (isReserved (targetKey f))) fs) eqn:B.
    + left. rewrite forallb_forall in A, B. rewrite !Forall_forall.
      split; intros f Hf; apply negb_true_iff; auto.
    + right. apply not_true_iff_false in B.
      destruct (existsb (fun f => isReserved (targetKey f)) fs) eqn:X.
      * apply existsb_exists in X. destruct X as [f [Hf R]].
        assert (validType (createMutationSchema fs (resolveMutation t))
                = false) as VM
          by apply (validType_reserved targetKey
                      (mutationSlot (resolveMutation t)) fs "RootMutationType"
                      targetNames f Hf R).
        unfold validateSchema, sch. cbn [getQueryType getMutationType].
        rewrite VM. apply andb_false_r.
      * exfalso. apply B. apply forallb_forall. intros f Hf.
        apply negb_true_iff. destruct (isReserved (targetKey f)) eqn:R;
          [|reflexivity].
        assert (existsb (fun f => isReserved (targetKey f)) fs = true)
          by (apply existsb_exists; now exists f).
        congruence.
  - right. apply not_true_iff_false in A.
    destruct (existsb (fun f => isReserved (sourceKey f)) fs) eqn:X.
    + apply existsb_exists in X. destruct X as [f [Hf R]].
      assert (validType (createQuerySchema fs (resolveQuery s)) = false)
        as VQ
        by apply (validType_reserved sourceKey (querySlot (resolveQuery s))
                    fs "RootQueryType" sourceNames f Hf R).
      unfold validateSchema, sch. cbn [getQueryType getMutationType].
      now rewrite VQ.
    + exfalso. apply A. apply forallb_forall. intros f Hf.
      apply negb_true_iff. destruct (isReserved (sourceKey f)) eqn:R;
        [|reflexivity].
      assert (existsb (fun f => isReserved (sourceKey f)) fs = true)
        by (apply existsb_exists; now exists f).
      congruence.
Qed.

Lemma resolveSource_built :
  Forall (fun f => isReserved (sourceKey f) = false) fs ->
  Forall (fun f => isReserved (targetKey f) = false) fs ->
  resolveSource beyond printErrors built
  = match queryErrors (resolveQuery s) fs with
    | [] => Ok (queryData (resolveQuery s) fs)
    | e :: es =>
        Throw (Error ("Query execution failed: " ++ printErrors (e :: es)))
    end.
Proof.
  intros Hs Ht. destruct valid as (Hne & Hsd & Htd & _).
  unfold resolveSource, built, sch. cbn [schema]. unfold createQueryString.
  cbn [getQueryType Js.bind].
  rewrite (graphql_query beyond fs s t) by assumption.
  unfold resultOf. cbn [errors data].
  now destruct (queryErrors (resolveQuery s) fs).
Qed.

Lemma queryErrors_rejected f :
  In f fs -> callQuery (resolveQuery s) (sourceKey f) = Rejected ->
  queryErrors (resolveQuery s) fs <> [].
Proof.
  intros Hf R E.
  assert (In (FieldFailed (sourceKey f)) (queryErrors (resolveQuery s) fs))
    as Hin.
  { unfold queryErrors. apply in_flat_map. exists f. split; [exact Hf|].
    rewrite R. now left. }
  now rewrite E in Hin.
Qed.

Lemma mutationErrors_rejected f :
  In f fs -> mutationOutcome (resolveQuery s) (resolveMutation t) f = Rejected ->
  mutationErrors (resolveQuery s) (resolveMutation t) fs <> [].
Proof.
  intros Hf R E.
  assert (In (FieldFailed (targetKey f))
             (mutationErrors (resolveQuery s) (resolveMutation t) fs)) as Hin.
  { unfold mutationErrors. apply in_flat_map. exists f. split; [exact Hf|].
    rewrite R. now left. }
  now rewrite E in Hin.
Qed.

(** A rejection in the query phase ends [sync] with [null]. *)
Lemma sync_query_rejected f :
  In f fs -> callQuery (resolveQuery s) (sourceKey f) = Rejected ->
  sync beyond printErrors (rawOf built) = Ok None.
Proof.
  intros Hf R.
  rewrite (sync_valid (rawOf built) built);
    [|now apply validateProcess_rawOf|reflexivity].
  destruct built_free_or_invalid as [[Hs Ht]|V].
  - rewrite (resolveSource_built Hs Ht).
    pose proof (queryErrors_rejected f Hf R) as N.
    now destruct (queryErrors (resolveQuery s) fs).
  - destruct (resolveSource_invalid_schema built V) as [e E].
    now rewrite E.
Qed.

(** A rejection in the mutation phase ends [sync] with [null], provided the
    query results left the mutation text within the covered language. *)
Lemma sync_mutation_rejected f :
  Forall (fun f =>
            isPlain (toString
                       (fst (completed (sourceKey f)
                               (callQuery (resolveQuery s) (sourceKey f)))))
            = true) fs ->
  In f fs ->
  mutationOutcome (resolveQuery s) (resolveMutation t) f = Rejected ->
  sync beyond printErrors (rawOf built) = Ok None.
Proof.
  intros P Hf R.
  destruct built_free_or_invalid as [[Hs Ht]|V].
  - destruct valid as (Hne & Hsd & Htd & _).
    unfold built, sch.
    rewrite (sync_built beyond printErrors fs s t) by
      (assumption || now apply validateProcess_rawOf).
    pose proof (mutationErrors_rejected f Hf R) as N.
    destruct (queryErrors (resolveQuery s) fs); [|reflexivity].
    now destruct (mutationErrors (resolveQuery s) (resolveMutation t) fs).
  - rewrite (sync_valid (rawOf built) built);
      [|now apply validateProcess_rawOf|reflexivity].
    destruct (resolveSource_invalid_schema built V) as [e E].
    now rewrite E.
Qed.

End SyncFacts.

Lemma flat_map_nil {A B : Type} (f : A -> list B) (l : list A) :
  (forall x, In x l -> f x = []) -> flat_map f l = [].
Proof.
  induction l as [|x l IH]; simpl; intros H; [reflexivity|].
  rewrite (H x) by now left. apply IH. intros; apply H; now right.
Qed.

(* ================================================================== *)
(** * The sync orchestrator *)




(** A query result that holds a double quote takes the mutation text out of
    the covered language: what [sync] returns then is decided by the
    library's reading of the text. *)
Remark quote_leaves_language :
  parse ("mutation{x(resolvedQuery:" ++ dquote ++ toString (VString dquote)
         ++ dquote ++ ")}")
  = None.
Proof. reflexivity. Qed.

Section Orchestrator.

Variable beyond : GraphQLSchema -> string -> ExecutionResult.
Variable printErrors : list GqlError -> string.

Lemma sync_total process :
  exists r, sync beyond printErrors process = Ok r.
Proof.
  destruct (validateProcess process) eqn:V.
  - destruct (validateProcess_asProcess process V) as (p & A & _).
    rewrite (sync_valid beyond printErrors process p V A). eexists.
    reflexivity.
  - rewrite (sync_invalid beyond printErrors process V). now exists None.
Qed.

Lemma resolveTarget_text_error p q e :
  createMutationString (schema p) (fields (options p)) q = Throw e ->
  resolveTarget beyond printErrors p q = Throw e.
Proof. intros E. unfold resolveTarget. now rewrite E. Qed.

Lemma resolveSource_text_error p e :
  createQueryString (schema p) = Throw e ->
  resolveSource beyond printErrors p = Throw e.
Proof. intros E. unfold resolveSource. now rewrite E. Qed.

End Orchestrator.



(* ================================================================== *)
(** * Further properties of the lookups *)

Lemma find_first {A : Type} (p : A -> bool) (l : list A) (x : A) :
  List.find p l = Some x ->
  exists pre post,
    l = (pre ++ x :: post)%list /\ p x = true
    /\ forall y, In y pre -> p y = false.
Proof.
  induction l as [|a l IH]; simpl; [discriminate|].
  destruct (p a) eqn:E.
  - intros H. inversion H; subst. exists [], l. repeat split; auto.
    intros y [].
  - intros H. destruct (IH H) as (pre & post & -> & Hx & Hpre).
    exists (a :: pre), post. repeat split; auto.
    intros y [<-|Hy]; auto.
Qed.

Lemma find_none_keys {A : Type} (kf : A -> string) (l : list A) (k : string) :
  List.find (fun x => String.eqb k (kf x)) l = None <-> ~ In k (map kf l).
Proof.
  split.
  - intros H Hin. apply in_map_iff in Hin. destruct Hin as [x [E Hx]].
    apply (find_none _ _ H) in Hx. rewrite E in Hx.
    now rewrite String.eqb_refl in Hx.
  - intros H. destruct (List.find _ l) as [x|] eqn:F; [|reflexivity].
    apply find_some in F. destruct F as [Hx E]. apply String.eqb_eq in E.
    exfalso. apply H. rewrite E. now apply in_map.
Qed.

Lemma not_in_keys {A : Type} (kf : A -> string) (l : list A) (k : string) :
  (forall y, In y l -> String.eqb k (kf y) = false) -> ~ In k (map kf l).
Proof.
  intros H Hin. apply in_map_iff in Hin. destruct Hin as [y [E Hy]].
  apply H in Hy. rewrite E in Hy. now rewrite String.eqb_refl in Hy.
Qed.

(** X1: both lookups are first-match searches.  [findQueryFieldName] answers
    [undefined] exactly when no entry has the target key, and otherwise the
    source key of the first entry that has it; [findMutationFieldName] does
    the same from source keys to target keys. *)
Theorem lookups_first_match :
  forall (fields : list MappedField) (k : string),
    (findQueryFieldName fields k = None <-> ~ In k (map targetKey fields))
    /\ (forall s,
          findQueryFieldName fields k = Some s ->
          exists pre f post,
            fields = (pre ++ f :: post)%list
            /\ targetKey f = k /\ sourceKey f = s
            /\ ~ In k (map targetKey pre))
    /\ (findMutationFieldName fields k = None
        <-> ~ In k (map sourceKey fields))
    /\ (forall t,
          findMutationFieldName fields k = Some t ->
          exists pre f post,
            fields = (pre ++ f :: post)%list
            /\ sourceKey f = k /\ targetKey f = t
            /\ ~ In k (map sourceKey pre)).
Proof.
  intros fields k. unfold findQueryFieldName, findMutationFieldName, Js.find.
  split; [|split; [|split]].
  - rewrite <- (find_none_keys targetKey). unfold targetKey.
    destruct (List.find _ fields); simpl; intuition discriminate.
  - intros s H.
    destruct (List.find (fun f => String.eqb k (key (targetField f))) fields)
      as [f|] eqn:F; [|discriminate].
    simpl in H. inversion H; subst s.
    destruct (find_first _ _ _ F) as (pre & post & E & Hf & Hpre).
    exists pre, f, post. apply String.eqb_eq in Hf.
    repeat split; auto. now apply (not_in_keys targetKey).
  - rewrite <- (find_none_keys sourceKey). unfold sourceKey.
    destruct (List.find _ fields); simpl; intuition discriminate.
  - intros t H.
    destruct (List.find (fun f => String.eqb k (key (sourceField f))) fields)
      as [f|] eqn:F; [|discriminate].
    simpl in H. inversion H; subst t.
    destruct (find_first _ _ _ F) as (pre & post & E & Hf & Hpre).
    exists pre, f, post. apply String.eqb_eq in Hf.
    repeat split; auto. now apply (not_in_keys sourceKey).
Qed.

(** X2: in a mapping list that repeats no target key, looking a source key
    of the list up and back returns it. *)
Theorem inverse_lookup_back :
  forall (fields : list MappedField) (s : string),
    NoDup (map targetKey fields) ->
    In s (map sourceKey fields) ->
    inverseLookupBack fields s = Some s.
Proof.
  intros fields s Hnd Hin.
  unfold inverseLookupBack, findMutationFieldName, Js.find.
  destruct (List.find (fun f => String.eqb s (key (sourceField f))) fields)
    as [f|] eqn:E.
  - apply find_some in E. destruct E as [Hf Es]. apply String.eqb_eq in Es.
    simpl. unfold findQueryFieldName, Js.find.
    rewrite (find_unique_target fields f Hnd Hf). simpl. now subst s.
  - exfalso. apply (find_none_keys sourceKey) in E. contradiction.
Qed.

Lemma inverse_lookup_back_witness :
  inverseLookupBack scenarioFields "age" = Some "age".
Proof.
  apply (inverse_lookup_back scenarioFields "age" NoDup_scenario_target).
  simpl. right. now left.
Defined.

(* ================================================================== *)
(** * Further properties of construction and validation *)

(** X3: [createSchema] returns a schema exactly when every source key and
    every target key of the mapping list is a GraphQL name; when it raises,
    the error is the library's. *)
Theorem createSchema_returns_iff :
  forall (mapping : list MappedField) (s t : Integration),
    ((exists schema, createSchema mapping s t = Ok schema)
     <-> (Forall (fun f => isName (sourceKey f) = true) mapping
          /\ Forall (fun f => isName (targetKey f) = true) mapping))
    /\ (forall e, createSchema mapping s t = Throw e -> e = GraphQLError).
Proof.
  intros fs s t. split; [split|].
  - intros [schema E]. apply createSchema_inv in E. tauto.
  - intros [Hs Ht]. eexists. now apply createSchema_names.
  - intros e. unfold createSchema, newGraphQLSchema.
    destruct (_ && _); [discriminate|]. intros H. now inversion H.
Qed.

(** X4: [createProcess] returns a process exactly when the mapping list is
    non-empty, repeats no key on either side, has GraphQL names for keys,
    and both resolvers are there; otherwise it raises the library's error
    for a key that is no name, or [Invalid process]. *)
Theorem createProcess_returns_iff :
  forall opts : ProcessOptions,
    ((exists p, createProcess opts = Ok p)
     <-> (fields opts <> []
          /\ NoDup (map sourceKey (fields opts))
          /\ NoDup (map targetKey (fields opts))
          /\ Forall (fun f => isName (sourceKey f) = true) (fields opts)
          /\ Forall (fun f => isName (targetKey f) = true) (fields opts)
          /\ resolveQuery (sourceIntegration opts) <> None
          /\ resolveMutation (targetIntegration opts) <> None))
    /\ (forall e,
          createProcess opts = Throw e ->
          e = GraphQLError \/ e = Error "Invalid process").
Proof.
  intros opts. split; [split|].
  - intros [p E]. apply createProcess_inv in E.
    destruct E as (-> & (H1 & H2 & H3 & H4 & H5 & _) & Hs & Ht).
    cbn [fields options sourceIntegration targetIntegration] in *. tauto.
  - intros (H1 & H2 & H3 & H4 & H5 & H6 & H7). destruct opts as [fs s t].
    cbn [fields sourceIntegration targetIntegration] in *.
    destruct (createProcess_ok fs s t H1 H2 H3 H4 H5 H6 H7) as (sch & _ & E).
    eexists. exact E.
  - intros e. unfold createProcess.
    destruct (createSchema _ _ _) as [sch|e'] eqn:E; cbn [Js.bind].
    + destruct (negb _); [|discriminate]. intros H. inversion H. now right.
    + intros H. inversion H; subst e'. left.
      unfold createSchema, newGraphQLSchema in E.
      destruct (_ && _); [discriminate|]. now inversion E.
Qed.


Lemma repeated_keys {A : Type} (kf : A -> string) (l : list A) :
  ~ NoDup (map kf l) -> (length l =? setSize (map kf l))%nat = false.
Proof.
  intros H. destruct (length l =? setSize (map kf l))%nat eqn:E;
    [|reflexivity].
  apply unique_keys in E. contradiction.
Qed.

(** X6: the checks of [validateProcess] come in a fixed order and only the
    first one that fails is reported: an empty mapping list before repeated
    source keys, repeated source keys before repeated target keys, these
    before a missing query resolver, and that before a missing mutation
    resolver. *)
Theorem validateChecks_first_failure :
  forall p : Process,
    (fields (options p) = [] ->
     validateChecks (rawOf p)
     = Throw (invariantError "Fields cannot be empty"))
    /\ (fields (options p) <> [] ->
        ~ NoDup (map sourceKey (fields (options p))) ->
        validateChecks (rawOf p)
        = Throw (invariantError "Source fields must be unique"))
    /\ (fields (options p) <> [] ->
        NoDup (map sourceKey (fields (options p))) ->
        ~ NoDup (map targetKey (fields (options p))) ->
        validateChecks (rawOf p)
        = Throw (invariantError "Target fields must be unique"))
    /\ (fields (options p) <> [] ->
        NoDup (map sourceKey (fields (options p))) ->
        NoDup (map targetKey (fields (options p))) ->
        resolveQuery (sourceIntegration (options p)) = None ->
        validateChecks (rawOf p)
        = Throw (invariantError "Source must have a resolveQuery"))
    /\ (fields (options p) <> [] ->
        NoDup (map sourceKey (fields (options p))) ->
        NoDup (map targetKey (fields (options p))) ->
        resolveQuery (sourceIntegration (options p)) <> None ->
        resolveMutation (targetIntegration (options p)) = None ->
        validateChecks (rawOf p)
        = Throw (invariantError "Target must have a resolveMutation")).
Proof.
  intros [[fs s t] sch].
  cbn [fields options sourceIntegration targetIntegration].
  unfold validateChecks, rawOf, rawOfOptions, invariant, invariantError.
  cbn [Js.bind required rawOptions rawFields rawSourceIntegration
       rawTargetIntegration rawSchema fields options schema sourceIntegration
       targetIntegration].
  fold sourceKey targetKey.
  change (fun f : MappedField => key (sourceField f)) with sourceKey.
  change (fun f : MappedField => key (targetField f)) with targetKey.
  assert (fs <> [] -> (0 <? length fs)%nat = true) as L.
  { destruct fs; [now intros H|reflexivity]. }
  repeat split.
  - intros ->. reflexivity.
  - intros H1 H2. now rewrite (L H1), (repeated_keys sourceKey fs H2).
  - intros H1 H2 H3. apply unique_keys in H2.
    now rewrite (L H1), H2, (repeated_keys targetKey fs H3).
  - intros H1 H2 H3 H4. apply unique_keys in H2, H3.
    now rewrite (L H1), H2, H3, H4.
  - intros H1 H2 H3 H4 H5. apply unique_keys in H2, H3.
    rewrite (L H1), H2, H3, H5. cbn [Js.bind].
    destruct (resolveQuery s); [reflexivity|now contradiction H4].
Qed.

Lemma validateChecks_first_failure_witness :
  validateChecks
    (rawOf (mkProcess (mkOptions duplicatedSource rejectingSource
                         rejectingSource)
              duplicatedSchema))
  = Throw (invariantError "Source fields must be unique").
Proof.
  apply (proj1 (proj2 (validateChecks_first_failure
                         (mkProcess (mkOptions duplicatedSource
                                       rejectingSource rejectingSource)
                            duplicatedSchema)))).
  - discriminate.
  - intros H. inversion H as [|? ? Hin _]. apply Hin. simpl. now left.
Defined.

(* ================================================================== *)
(** * Further properties of the texts and of the phases *)

Lemma pairedValue_getProp fs qr f :
  NoDup (map targetKey fs) -> In f fs ->
  pairedValue fs qr (targetKey f) = getProp qr (sourceKey f).
Proof.
  intros Hnd Hf. unfold pairedValue, getProp.
  now rewrite (findQuery_built fs Hnd f Hf).
Qed.

Lemma createMutationString_mapping fs s t qr :
  NoDup (map targetKey fs) ->
  Forall (fun f => isName (sourceKey f) = true) fs ->
  Forall (fun f => isName (targetKey f) = true) fs ->
  createMutationString
    (mkSchema (Some (createQuerySchema fs (resolveQuery s)))
              (Some (createMutationSchema fs (resolveMutation t))))
    fs qr
  = Ok ("mutation{"
        ++ join " "
             (map (fun f => fragment (targetKey f)
                              (getProp qr (sourceKey f))) fs)
        ++ "}").
Proof.
  intros Htd Hsn Htn.
  rewrite (createMutationString_slots
             (mkSchema (Some (createQuerySchema fs (resolveQuery s)))
                       (Some (createMutationSchema fs (resolveMutation t))))
             fs qr (createMutationSchema fs (resolveMutation t)) eq_refl).
  rewrite (keys_M fs t Htd Htn).
  rewrite (mapM_all_ok _ (fun n => fragment n (pairedValue fs qr n))).
  - cbn [Js.bind]. rewrite map_map.
    replace (map (fun f => fragment (targetKey f)
                             (pairedValue fs qr (targetKey f))) fs)
      with (map (fun f => fragment (targetKey f)
                            (getProp qr (sourceKey f))) fs); [reflexivity|].
    apply map_ext_in. intros f Hf. now rewrite pairedValue_getProp.
  - intros n Hn. apply in_map_iff in Hn. destruct Hn as [f [<- Hf]].
    apply slotText_paired. now apply paired_built.
Qed.



Section TargetPhase.

Variable beyond : GraphQLSchema -> string -> ExecutionResult.
Variable printErrors : list GqlError -> string.
Variable fs : list MappedField.
Variables s t : Integration.
Variable qr : obj value.

Hypothesis nonempty : fs <> [].
Hypothesis targetDistinct : NoDup (map targetKey fs).
Hypothesis sourceNames : Forall (fun f => isName (sourceKey f) = true) fs.
Hypothesis targetNames : Forall (fun f => isName (targetKey f) = true) fs.
Hypothesis sourceFree : Forall (fun f => isReserved (sourceKey f) = false) fs.
Hypothesis targetFree : Forall (fun f => isReserved (targetKey f) = false) fs.
Hypothesis plainResults :
  Forall (fun f => isPlain (toString (getProp qr (sourceKey f))) = true) fs.

Let M : GraphQLObjectType := createMutationSchema fs (resolveMutation t).
Let sch : GraphQLSchema :=
  mkSchema (Some (createQuerySchema fs (resolveQuery s))) (Some M).
Let given : list (string * value) :=
  map (fun f => (targetKey f, getProp qr (sourceKey f))) fs.

Lemma executeField_target f :
  In f fs ->
  executeField M (mutationNode (targetKey f, getProp qr (sourceKey f)))
  = completed (targetKey f) (targetCall (resolveMutation t) qr f).
Proof.
  intros Hf. unfold executeField.
  change (argumentValues
            (mutationNode (targetKey f, getProp qr (sourceKey f))))
    with [("resolvedQuery", VString (toString (getProp qr (sourceKey f))))].
  change (fieldName (mutationNode (targetKey f, getProp qr (sourceKey f))))
    with (targetKey f).
  destruct (get_slot targetKey (mutationSlot (resolveMutation t)) fs
              targetNames f Hf)
    as (g & _ & E & G).
  unfold M. rewrite fields_M, G.
  rewrite resolve_mutationSlot, E. unfold completed, targetCall.
  now destruct (callMutation (resolveMutation t) (targetKey f) _).
Qed.

Lemma executeFields_target l :
  incl l fs ->
  executeFields M
    (map mutationNode
       (map (fun f => (targetKey f, getProp qr (sourceKey f))) l))
  = (targetData (resolveMutation t) qr l,
     targetErrors (resolveMutation t) qr l).
Proof.
  induction l as [|f l IH]; intros Hl; [reflexivity|].
  cbn [map executeFields].
  rewrite executeField_target by (apply Hl; now left).
  rewrite IH by (intros x Hx; apply Hl; now right).
  unfold targetData, targetErrors. cbn [map flat_map].
  now destruct (completed (targetKey f) (targetCall (resolveMutation t) qr f)).
Qed.

Lemma validate_target :
  validate M (mkDocument OpMutation (map mutationNode given)) = true.
Proof.
  unfold validate. cbn [selections]. apply forallb_forall. intros nd Hnd.
  unfold given in Hnd. rewrite map_map in Hnd. apply in_map_iff in Hnd.
  destruct Hnd as [f [<- Hf]]. unfold validSelection.
  cbn [fieldName mutationNode argument fst snd].
  destruct (get_slot targetKey (mutationSlot (resolveMutation t)) fs
              targetNames f Hf)
    as (g & _ & _ & G).
  unfold M. rewrite fields_M, G. reflexivity.
Qed.

Lemma graphql_target :
  graphql beyond sch
    ("mutation{"
     ++ join " "
          (map (fun f => fragment (targetKey f) (getProp qr (sourceKey f)))
               fs)
     ++ "}")
  = resultOf (targetData (resolveMutation t) qr fs)
             (targetErrors (resolveMutation t) qr fs).
Proof.
  unfold graphql, sch, M.
  rewrite (validateSchema_built fs s t) by assumption. cbn [negb].
  replace (map (fun f => fragment (targetKey f) (getProp qr (sourceKey f)))
             fs)
    with (map (fun it => fragment (fst it) (snd it)) given)
    by (unfold given; now rewrite map_map).
  rewrite parse_mutation.
  - cbn [operation rootType getMutationType].
    fold M. rewrite validate_target. unfold execute.
    cbn [selections]. unfold given.
    rewrite executeFields_target by apply incl_refl. reflexivity.
  - unfold given. destruct fs; [now contradiction nonempty|discriminate].
  - unfold given. rewrite map_map. exact targetDistinct.
  - unfold given. rewrite Forall_map. cbn [fst snd].
    rewrite Forall_forall in *. intros f Hf. split; auto.
  - unfold given. rewrite Forall_map. exact targetFree.
Qed.

Lemma resolveTarget_given :
  resolveTarget beyond printErrors (mkProcess (mkOptions fs s t) sch) qr
  = match targetErrors (resolveMutation t) qr fs with
    | [] => Ok (Some (targetData (resolveMutation t) qr fs))
    | e :: es =>
        Throw (Error ("Mutation execution failed: "
                        ++ printErrors (e :: es)))
    end.
Proof.
  unfold resolveTarget. cbn [schema options fields]. unfold sch, M.
  rewrite createMutationString_mapping by assumption. cbn [Js.bind].
  fold M. fold sch. rewrite graphql_target.
  unfold resultOf. cbn [errors data].
  now destruct (targetErrors (resolveMutation t) qr fs).
Qed.

End TargetPhase.

Lemma free_keys (fs : list MappedField) :
  (forall f, In f fs ->
     isReserved (sourceKey f) = false /\ isReserved (targetKey f) = false) ->
  Forall (fun f => isReserved (sourceKey f) = false) fs
  /\ Forall (fun f => isReserved (targetKey f) = false) fs.
Proof.
  intros H. split; apply Forall_forall; intros f Hf; now apply H.
Qed.



Lemma flat_map_nil_inv {A B : Type} (f : A -> list B) (l : list A) :
  flat_map f l = [] -> forall x, In x l -> f x = [].
Proof.
  induction l as [|a l IH]; simpl; intros H x Hx; [contradiction|].
  apply app_eq_nil in H. destruct H as [Ha Hl].
  destruct Hx as [<-|Hx]; auto.
Qed.

Lemma completed_no_error path o :
  snd (completed path o) = [] <-> o <> Rejected.
Proof.
  destruct o; simpl; split; intros H; try discriminate; try reflexivity.
  now contradiction H.
Qed.

Lemma queryErrors_nil r fs :
  queryErrors r fs = []
  <-> forall f, In f fs -> callQuery r (sourceKey f) <> Rejected.
Proof.
  unfold queryErrors. split.
  - intros H f Hf. apply (completed_no_error (sourceKey f)).
    now apply (flat_map_nil_inv _ fs H f).
  - intros H. apply flat_map_nil. intros f Hf.
    apply completed_no_error. now apply H.
Qed.

Lemma mutationErrors_nil rq rm fs :
  mutationErrors rq rm fs = []
  <-> forall f, In f fs -> mutationOutcome rq rm f <> Rejected.
Proof.
  unfold mutationErrors. split.
  - intros H f Hf. apply (completed_no_error (targetKey f)).
    now apply (flat_map_nil_inv _ fs H f).
  - intros H. apply flat_map_nil. intros f Hf.
    apply completed_no_error. now apply H.
Qed.



(** X10: [createProcess] accepts a key that starts with two underscores,
    but [sync] on the process it returns is always [null]: the library
    refuses the schema before any resolver is called, so [resolveSource]
    raises whatever the resolvers do. *)
Theorem reserved_key_never_syncs :
  forall (beyond : GraphQLSchema -> string -> ExecutionResult)
         (printErrors : list GqlError -> string)
         (opts : ProcessOptions) (p : Process) (f : MappedField),
    createProcess opts = Ok p ->
    In f (fields opts) ->
    isReserved (sourceKey f) = true \/ isReserved (targetKey f) = true ->
    (exists e, resolveSource beyond printErrors p = Throw e)
    /\ sync beyond printErrors (rawOf p) = Ok None.
Proof.
  intros beyond printErrors [fs s t] p f E Hf R.
  apply createProcess_inv in E.
  cbn [fields sourceIntegration targetIntegration] in *.
  destruct E as (-> & V & Hsn & Htn).
  destruct (built_free_or_invalid fs s t Hsn Htn) as [[Hs Ht]|I].
  - exfalso. rewrite Forall_forall in Hs, Ht.
    destruct R as [R|R]; [rewrite (Hs f Hf) in R|rewrite (Ht f Hf) in R];
      discriminate.
  - destruct (resolveSource_invalid_schema beyond printErrors
                (mkProcess (mkOptions fs s t) _) I) as [e Ee].
    split; [now exists e|].
    set (p := mkProcess (mkOptions fs s t) _) in *.
    rewrite (sync_valid beyond printErrors (rawOf p) p
               (proj2 (validateProcess_rawOf p) V) eq_refl).
    now rewrite Ee.
Qed.

Lemma reserved_key_never_syncs_witness :
  createProcess (mkOptions reservedFields echo echo) = Ok reservedProcess
  /\ sync noAnswer noText (rawOf reservedProcess) = Ok None.
Proof.
  split; [reflexivity|].
  refine (proj2 (reserved_key_never_syncs noAnswer noText
                   (mkOptions reservedFields echo echo) reservedProcess
                   (mkMappedField (mkField "__id" TString)
                                  (mkField "id" TString))
                   eq_refl _ _)).
  - now left.
  - now left.
Defined.

Lemma completeValue_response v : isResponseValue (completeValue v).
Proof.
  destruct v as [| |b|text]; simpl; [now left|now left| |];
    right; eexists; reflexivity.
Qed.

Lemma plain_completed (rq : option (string -> settled)) (k : string) :
  (forall text, callQuery rq k = Fulfilled (VString text) ->
                isPlain text = true) ->
  isPlain (toString (fst (completed k (callQuery rq k)))) = true.
Proof.
  intros H. destruct (callQuery rq k) as [[| |[|]|text]|]; try reflexivity.
  simpl. now apply H.
Qed.

(** The two phases of [sync] on a created process, for resolvers of any
    behaviour. *)
Lemma sync_created beyond printErrors opts p :
  createProcess opts = Ok p ->
  (forall f, In f (fields opts) ->
     isReserved (sourceKey f) = false /\ isReserved (targetKey f) = false) ->
  (forall f text, In f (fields opts) ->
     callQuery (resolveQuery (sourceIntegration opts)) (sourceKey f)
     = Fulfilled (VString text) -> isPlain text = true) ->
  sync beyond printErrors (rawOf p)
  = Ok (match queryErrors (resolveQuery (sourceIntegration opts))
                (fields opts),
              mutationErrors (resolveQuery (sourceIntegration opts))
                (resolveMutation (targetIntegration opts)) (fields opts) with
        | [], [] =>
            Some (mutationData (resolveQuery (sourceIntegration opts))
                    (resolveMutation (targetIntegration opts)) (fields opts))
        | _, _ => None
        end).
Proof.
  destruct opts as [fs s t]. intros E Hfree Hplain.
  apply createProcess_inv in E.
  cbn [fields sourceIntegration targetIntegration] in *.
  destruct E as (-> & V & Hsn & Htn).
  destruct (free_keys fs Hfree) as [Hsf Htf].
  pose proof V as (Hne & Hsd & Htd & _). cbn [fields options] in Hne, Hsd, Htd.
  apply (sync_built beyond printErrors fs s t Hne Hsd Htd Hsn Htn Hsf Htf).
  - apply Forall_forall. intros f Hf. apply plain_completed.
    intros text. now apply Hplain.
  - now apply validateProcess_rawOf.
Qed.



Lemma get_mutationData rq rm (fs : list MappedField) f :
  NoDup (map targetKey fs) -> In f fs ->
  get (targetKey f) (mutationData rq rm fs)
  = Some (fst (completed (targetKey f) (mutationOutcome rq rm f))).
Proof.
  unfold mutationData.
  induction fs as [|g l IH]; intros Htd Hf; [contradiction|].
  cbn [map get]. cbn [map] in Htd. apply NoDup_cons_iff in Htd.
  destruct Htd as [Hnotin Hl].
  destruct Hf as [->|Hf].
  - now rewrite String.eqb_refl.
  - destruct (String.eqb (targetKey f) (targetKey g)) eqn:K.
    + apply String.eqb_eq in K. exfalso. apply Hnotin. rewrite <- K.
      now apply in_map.
    + now apply IH.
Qed.

(** X12: under the same conditions, a record that [sync] returns has
    exactly the target keys of the mapping list, in list order, and every
    value in it is a string or [null]: the response of the mutation
    resolver as [GraphQLString] serialises it, [null] for a response of
    [null] or [undefined]. *)
Theorem sync_record_shape :
  forall (beyond : GraphQLSchema -> string -> ExecutionResult)
         (printErrors : list GqlError -> string)
         (opts : ProcessOptions) (p : Process) (record : obj value),
    createProcess opts = Ok p ->
    (forall f, In f (fields opts) ->
       isReserved (sourceKey f) = false /\ isReserved (targetKey f) = false) ->
    (forall f text, In f (fields opts) ->
       callQuery (resolveQuery (sourceIntegration opts)) (sourceKey f)
       = Fulfilled (VString text) -> isPlain text = true) ->
    sync beyond printErrors (rawOf p) = Ok (Some record) ->
    keys record = map targetKey (fields opts)
    /\ (forall k v, In (k, v) record -> isResponseValue v)
    /\ (forall f, In f (fields opts) ->
          exists v,
            mutationOutcome (resolveQuery (sourceIntegration opts))
              (resolveMutation (targetIntegration opts)) f = Fulfilled v
            /\ get (targetKey f) record = Some (completeValue v)).
Proof.
  intros beyond printErrors opts p record E Hfree Hplain.
  rewrite (sync_created beyond printErrors opts p E Hfree Hplain).
  apply createProcess_inv in E.
  destruct E as (-> & (_ & _ & Htd & _) & _ & Htn).
  cbn [fields options] in Htd.
  set (rq := resolveQuery (sourceIntegration opts)) in *.
  set (rm := resolveMutation (targetIntegration opts)) in *.
  destruct (queryErrors rq (fields opts)); [|discriminate].
  destruct (mutationErrors rq rm (fields opts)) eqn:ME; [|discriminate].
  intros H. injection H as <-.
  pose proof (proj1 (mutationErrors_nil rq rm (fields opts)) ME) as N.
  clear ME. split; [|split].
  - unfold keys. rewrite ownEntries_named.
    + unfold mutationData. rewrite map_map. reflexivity.
    + unfold mutationData. rewrite Forall_map. cbn [fst].
      rewrite Forall_forall in *. intros f Hf.
      now apply isName_named, Htn.
  - intros k v Hin. unfold mutationData in Hin. apply in_map_iff in Hin.
    destruct Hin as (f & A & Hf). injection A as _ <-.
    destruct (mutationOutcome rq rm f) eqn:O.
    + apply completeValue_response.
    + now left.
  - intros f Hf.
    destruct (mutationOutcome rq rm f) as [v|] eqn:O;
      [|now contradiction (N f Hf)].
    exists v. split; [reflexivity|].
    rewrite (get_mutationData rq rm (fields opts) f Htd Hf). now rewrite O.
Qed.

Lemma sync_record_shape_witness :
  keys [ ("fullName", VString "mutated_fullName_source_name_value");
         ("userAge", VString "mutated_userAge_source_age_value") ]
  = ["fullName"; "userAge"].
Proof.
  refine (proj1 (sync_record_shape noAnswer noText
                   (mkOptions scenarioFields mockSourceIntegration
                      mockTargetIntegration)
                   mockProcess _ eq_refl _ _ _)).
  - intros f [<-|[<-|[]]]; split; reflexivity.
  - intros f text [<-|[<-|[]]] A; injection A as <-; reflexivity.
  - vm_compute. reflexivity.
Defined.

Lemma find_rev_none {A : Type} (kf : A -> string) (l : list A) (k : string) :
  List.find (fun x => String.eqb k (kf x)) (rev l) = None
  <-> ~ In k (map kf l).
Proof.
  split.
  - intros F Hin. apply in_map_iff in Hin. destruct Hin as (x & <- & Hx).
    apply in_rev in Hx. pose proof (find_none _ _ F x Hx) as N.
    cbv beta in N. rewrite String.eqb_refl in N. discriminate.
  - intros N. destruct (List.find _ (rev l)) as [x|] eqn:F; [|reflexivity].
    apply find_some in F. destruct F as [Hx E]. apply String.eqb_eq in E.
    exfalso. apply N. subst k. apply in_map. now apply in_rev.
Qed.

Lemma slot_of_key {V : Type} (kf : MappedField -> string)
  (vf : MappedField -> V) (fields : list MappedField) :
  Forall (fun f => isName (kf f) = true) fields ->
  forall k,
    (get k (slotSet kf vf fields) = None <-> ~ In k (map kf fields))
    /\ (forall cfg, get k (slotSet kf vf fields) = Some cfg ->
          exists g, In g fields /\ kf g = k /\ cfg = vf g).
Proof.
  intros Hn k.
  assert (Forall (fun f => named_key (kf f)) fields) as Hnamed.
  { rewrite Forall_forall in *. intros f Hf. now apply isName_named, Hn. }
  rewrite (get_slotSet kf vf fields k Hnamed). split.
  - rewrite <- find_rev_none.
    destruct (List.find _ (rev fields)); simpl; split; intros H;
      congruence.
  - intros cfg H.
    destruct (List.find _ (rev fields)) as [g|] eqn:F; [|discriminate].
    simpl in H. injection H as <-.
    apply find_some in F. destruct F as [Hg E]. apply String.eqb_eq in E.
    exists g. split; [now apply in_rev|]. split; [now symmetry|reflexivity].
Qed.

(** X13: in a schema that [createSchema] returned, the query type has a
    slot exactly for the source keys and the mutation type exactly for the
    target keys.  A query slot takes no argument and its resolver calls
    [resolveQuery] with the slot's own key, whatever it is handed; a
    mutation slot takes the one argument [resolvedQuery] and its resolver
    calls [resolveMutation] with the slot's own key and that argument,
    [undefined] when it is missing. *)
Theorem slots_call_own_key :
  forall (fields : list MappedField) (s t : Integration)
         (schema : GraphQLSchema),
    createSchema fields s t = Ok schema ->
    exists queryType mutationType,
      getQueryType schema = Some queryType
      /\ getMutationType schema = Some mutationType
      /\ (forall k,
            (get k (getFields queryType) = None
             <-> ~ In k (map sourceKey fields))
            /\ (forall cfg,
                  get k (getFields queryType) = Some cfg ->
                  args cfg = []
                  /\ forall a,
                       resolve cfg a = callQuery (resolveQuery s) k))
      /\ (forall k,
            (get k (getFields mutationType) = None
             <-> ~ In k (map targetKey fields))
            /\ (forall cfg,
                  get k (getFields mutationType) = Some cfg ->
                  args cfg = ["resolvedQuery"]
                  /\ forall a,
                       resolve cfg a
                       = callMutation (resolveMutation t) k
                           (getProp a "resolvedQuery"))).
Proof.
  intros fields s t schema E.
  apply createSchema_inv in E. destruct E as (-> & Hsn & Htn).
  eexists. eexists. split; [reflexivity|]. split; [reflexivity|].
  cbn [getFields createQuerySchema createMutationSchema].
  split; intros k.
  - destruct (slot_of_key sourceKey (querySlot (resolveQuery s)) fields Hsn k)
      as [N S].
    split; [exact N|]. intros cfg G.
    destruct (S cfg G) as (g & _ & <- & ->). split; reflexivity.
  - destruct (slot_of_key targetKey (mutationSlot (resolveMutation t))
                fields Htn k) as [N S].
    split; [exact N|]. intros cfg G.
    destruct (S cfg G) as (g & _ & <- & ->). split; reflexivity.
Qed.

Lemma slots_call_own_key_witness :
  exists queryType mutationType,
    getQueryType (schema mockProcess) = Some queryType
    /\ getMutationType (schema mockProcess) = Some mutationType
    /\ (forall k,
          (get k (getFields queryType) = None
           <-> ~ In k (map sourceKey scenarioFields))
          /\ (forall cfg,
                get k (getFields queryType) = Some cfg ->
                args cfg = []
                /\ forall a,
                     resolve cfg a
                     = callQuery (resolveQuery mockSourceIntegration) k))
    /\ (forall k,
          (get k (getFields mutationType) = None
           <-> ~ In k (map targetKey scenarioFields))
          /\ (forall cfg,
                get k (getFields mutationType) = Some cfg ->
                args cfg = ["resolvedQuery"]
                /\ forall a,
                     resolve cfg a
                     = callMutation (resolveMutation mockTargetIntegration) k
                         (getProp a "resolvedQuery"))).
Proof.
  exact (slots_call_own_key scenarioFields mockSourceIntegration
           mockTargetIntegration (schema mockProcess) eq_refl).
Defined.

Lemma map_through {A B C : Type} (kf : A -> B) (h : B -> C) (l l' : list A) :
  map kf l = map kf l' ->
  map (fun x => h (kf x)) l = map (fun x => h (kf x)) l'.
Proof.
  intros E. rewrite <- (map_map kf h l), <- (map_map kf h l'). now rewrite E.
Qed.

Lemma querySlots_by_key (fs fs' : list MappedField) r :
  map sourceKey fs = map sourceKey fs' ->
  createQuerySchema fs r = createQuerySchema fs' r.
Proof.
  intros E. unfold createQuerySchema. cbv zeta. f_equal. f_equal.
  exact (map_through sourceKey
           (fun k => [(k, mkFieldConfig []
                            (fun _ : obj value => callQuery r k))])
           fs fs' E).
Qed.

Lemma mutationSlots_by_key (fs fs' : list MappedField) r :
  map targetKey fs = map targetKey fs' ->
  createMutationSchema fs r = createMutationSchema fs' r.
Proof.
  intros E. unfold createMutationSchema. cbv zeta. f_equal. f_equal.
  exact (map_through targetKey
           (fun k => [(k, mkFieldConfig ["resolvedQuery"]
                            (fun a : obj value =>
                               callMutation r k (getProp a "resolvedQuery")))])
           fs fs' E).
Qed.

Lemma findQueryFieldName_by_key : forall (fs fs' : list MappedField) k,
  map sourceKey fs = map sourceKey fs' ->
  map targetKey fs = map targetKey fs' ->
  findQueryFieldName fs k = findQueryFieldName fs' k.
Proof.
  unfold findQueryFieldName.
  induction fs as [|f fs IH]; intros [|g fs'] k Es Et; try discriminate;
    [reflexivity|].
  cbn [map] in Es, Et. injection Es as Es1 Es2. injection Et as Et1 Et2.
  unfold Js.find in *. cbn [List.find].
  unfold targetKey in Et1. unfold sourceKey in Es1.
  rewrite Et1.
  destruct (String.eqb k (key (targetField g))).
  - cbn [option_map]. now rewrite Es1.
  - now apply IH.
Qed.

Lemma findMutationFieldName_by_key : forall (fs fs' : list MappedField) k,
  map sourceKey fs = map sourceKey fs' ->
  map targetKey fs = map targetKey fs' ->
  findMutationFieldName fs k = findMutationFieldName fs' k.
Proof.
  unfold findMutationFieldName.
  induction fs as [|f fs IH]; intros [|g fs'] k Es Et; try discriminate;
    [reflexivity|].
  cbn [map] in Es, Et. injection Es as Es1 Es2. injection Et as Et1 Et2.
  unfold Js.find in *. cbn [List.find].
  unfold targetKey in Et1. unfold sourceKey in Es1.
  rewrite Es1.
  destruct (String.eqb k (key (sourceField g))).
  - cbn [option_map]. now rewrite Et1.
  - now apply IH.
Qed.

Lemma createMutationString_by_key (fs fs' : list MappedField) sch qr :
  map sourceKey fs = map sourceKey fs' ->
  map targetKey fs = map targetKey fs' ->
  createMutationString sch fs qr = createMutationString sch fs' qr.
Proof.
  intros Es Et. unfold createMutationString.
  destruct (getMutationType sch) as [M|]; [|reflexivity].
  f_equal. apply mapM_ext. intros e. cbv zeta.
  now rewrite (findQueryFieldName_by_key fs fs' (fst e) Es Et).
Qed.

Lemma validateProcess_by_key (fs fs' : list MappedField) s t sch :
  map sourceKey fs = map sourceKey fs' ->
  map targetKey fs = map targetKey fs' ->
  validateProcess (rawOf (mkProcess (mkOptions fs s t) sch))
  = validateProcess (rawOf (mkProcess (mkOptions fs' s t) sch)).
Proof.
  intros Es Et.
  assert (length fs = length fs') as L
    by (rewrite <- (length_map sourceKey fs), Es; apply length_map).
  unfold validateProcess, validateChecks.
  cbn [rawOf rawOfOptions required Js.bind rawOptions rawFields rawSchema
       rawSourceIntegration rawTargetIntegration options schema fields
       sourceIntegration targetIntegration].
  fold sourceKey targetKey.
  change (map (fun f => key (sourceField f)) fs) with (map sourceKey fs).
  change (map (fun f => key (targetField f)) fs) with (map targetKey fs).
  change (map (fun f => key (sourceField f)) fs') with (map sourceKey fs').
  change (map (fun f => key (targetField f)) fs') with (map targetKey fs').
  now rewrite L, Es, Et.
Qed.

(** X14: the field types of a mapping list are never read.  Two lists with
    the same source keys and the same target keys in the same order give the
    same schema or the same error in [createSchema], the same lookups, the
    same mutation text, the same verdict of [validateProcess] and the same
    result of [sync]. *)
Theorem field_types_unused :
  forall (beyond : GraphQLSchema -> string -> ExecutionResult)
         (printErrors : list GqlError -> string)
         (fs fs' : list MappedField) (s t : Integration),
    map sourceKey fs = map sourceKey fs' ->
    map targetKey fs = map targetKey fs' ->
    createSchema fs s t = createSchema fs' s t
    /\ (forall k, findQueryFieldName fs k = findQueryFieldName fs' k)
    /\ (forall k, findMutationFieldName fs k = findMutationFieldName fs' k)
    /\ (forall sch queryResults,
          createMutationString sch fs queryResults
          = createMutationString sch fs' queryResults)
    /\ (forall sch,
          validateProcess (rawOf (mkProcess (mkOptions fs s t) sch))
          = validateProcess (rawOf (mkProcess (mkOptions fs' s t) sch)))
    /\ (forall sch,
          sync beyond printErrors (rawOf (mkProcess (mkOptions fs s t) sch))
          = sync beyond printErrors
              (rawOf (mkProcess (mkOptions fs' s t) sch))).
Proof.
  intros beyond printErrors fs fs' s t Es Et.
  split; [|split; [|split; [|split; [|split]]]].
  - unfold createSchema.
    now rewrite (querySlots_by_key fs fs' _ Es),
                (mutationSlots_by_key fs fs' _ Et).
  - intros k. now apply findQueryFieldName_by_key.
  - intros k. now apply findMutationFieldName_by_key.
  - intros sch qr. now apply createMutationString_by_key.
  - intros sch. now apply validateProcess_by_key.
  - intros sch. unfold sync.
    rewrite (validateProcess_by_key fs fs' s t sch Es Et).
    destruct (validateProcess _); [|reflexivity].
    cbn [negb asProcess rawOf rawOfOptions options schema fields
         sourceIntegration targetIntegration Js.bind].
    unfold resolveSource, resolveTarget. cbn [schema options fields].
    destruct (createQueryString sch) as [query|e]; [|reflexivity].
    cbn [Js.bind].
    destruct (errors (graphql beyond sch query)); [reflexivity|].
    destruct (data (graphql beyond sch query)) as [d|]; [|reflexivity].
    cbn [Js.bind].
    now rewrite (createMutationString_by_key fs fs' sch d Es Et).
Qed.

Lemma field_types_unused_witness :
  createSchema scenarioFields mockSourceIntegration mockTargetIntegration
  = createSchema retypedFields mockSourceIntegration mockTargetIntegration.
Proof.
  exact (proj1 (field_types_unused noAnswer noText scenarioFields
                  retypedFields mockSourceIntegration mockTargetIntegration
                  eq_refl eq_refl)).
Defined.



